(** * Tech-stack filter expressions: tokenizer, parser and evaluator

    A shallow embedding of [tech-stack-expression-parser.ts] (class
    [TechStackExpressionParser] and the four expression classes) together
    with the properties stated about it, followed by the code around it:
    the filter predicate, range label and page sizes of
    [job-list.component.ts], the service of [comparison.service.ts], the
    job-board test of [logo-url.util.ts] and the mobile window of
    [comparison-view.component.ts].

    Conventions of the embedding.
    - A JavaScript string is a [string]: a sequence of code units from 0
      to 255, the characters of Latin-1.  On them [trim] removes TAB, LF,
      VT, FF, CR, SP and the no-break space (code unit 160), and
      [toLowerCase] maps A-Z and the capital letters 192-214 and 216-222
      to the letter 32 places up, as the language does.  [toUpperCase]
      maps a-z only: the code compares its result with AND, OR and NOT
      alone, and only the letters a-z are mapped to a letter of these
      words.
    - [string | null] is [option string]; a [string[]] that may hold
      [null]/[undefined] entries is [list (option string)].
    - The parser object's fields are [tokens] and [currentIndex].  The
      productions only read [tokens], so they take it as a parameter and
      thread [currentIndex]; a thrown [Error] is the outcome [Throws].
    - The productions call each other recursively, so they are defined by
      recursion on a call-depth budget; [OutOfFuel] is the outcome of a
      budget that is too small, and [enoughFuel] is shown to be enough.
      [parse] is the method on a call stack that is deep enough for the
      input; [parseOnStack] is the method on a call stack of a given
      depth, where recursion that goes deeper raises a [RangeError]. *)

From Stdlib Require Import Bool Arith ZArith Lia List Ascii String DecimalString.
Import ListNotations.

Local Open Scope string_scope.
Local Open Scope nat_scope.
Local Open Scope list_scope.

(** ** JavaScript string primitives *)

Module JS.

Definition dquote : ascii := "034"%char.
Definition tab : ascii := "009"%char.
Definition newline : ascii := "010"%char.
Definition space : ascii := " "%char.
Definition lparen : ascii := "("%char.
Definition rparen : ascii := ")"%char.

(** White space and line terminators removed by [String.prototype.trim]:
    TAB, LF, VT, FF, CR, SP and the no-break space. *)
Definition isWhiteSpace (c : ascii) : bool :=
  let n := nat_of_ascii c in
  ((9 <=? n) && (n <=? 13)) || (n =? 32) || (n =? 160).

(** [String.prototype.toLowerCase] on one code unit: A-Z, and the capital
    letters of Latin-1 (192-222 but the multiplication sign 215). *)
Definition toLowerChar (c : ascii) : ascii :=
  let n := nat_of_ascii c in
  if ((65 <=? n) && (n <=? 90))
     || ((192 <=? n) && (n <=? 214))
     || ((216 <=? n) && (n <=? 222))
  then ascii_of_nat (n + 32) else c.

Definition toUpperChar (c : ascii) : ascii :=
  let n := nat_of_ascii c in
  if (97 <=? n) && (n <=? 122) then ascii_of_nat (n - 32) else c.

Fixpoint mapString (f : ascii -> ascii) (s : string) : string :=
  match s with
  | EmptyString => EmptyString
  | String c r => String (f c) (mapString f r)
  end.

Definition toLowerCase : string -> string := mapString toLowerChar.
Definition toUpperCase : string -> string := mapString toUpperChar.

Fixpoint trimStart (s : string) : string :=
  match s with
  | EmptyString => EmptyString
  | String c r => if isWhiteSpace c then trimStart r else s
  end.

Fixpoint trimEnd (s : string) : string :=
  match s with
  | EmptyString => EmptyString
  | String c r =>
      match trimEnd r with
      | EmptyString => if isWhiteSpace c then EmptyString else String c EmptyString
      | r' => String c r'
      end
  end.

Definition trim (s : string) : string := trimEnd (trimStart s).

(** Truthiness of a string: only the empty string is falsy. *)
Definition truthy (s : string) : bool :=
  match s with
  | EmptyString => false
  | String _ _ => true
  end.

(** [s + c] for a single code unit [c]. *)
Definition appendChar (s : string) (c : ascii) : string :=
  (s ++ String c EmptyString)%string.

Fixpoint allChars (p : ascii -> bool) (s : string) : bool :=
  match s with
  | EmptyString => true
  | String c r => p c && allChars p r
  end.

Fixpoint hasChar (c : ascii) (s : string) : bool :=
  match s with
  | EmptyString => false
  | String d r => Ascii.eqb d c || hasChar c r
  end.

End JS.

Import JS.

(** ** Expression trees and their evaluation *)

(** The classes [TermExpression], [NotExpression], [AndExpression] and
    [OrExpression] implementing the interface [TechStackExpression]. *)
Inductive TechStackExpression : Type :=
| TermExpression (term : string)
| NotExpression (expression : TechStackExpression)
| AndExpression (lhs rhs : TechStackExpression)
| OrExpression (lhs rhs : TechStackExpression).

(** [tech?.toLowerCase().trim() === normalizedTerm]: the optional chain
    yields [undefined] on a missing entry, which equals no string. *)
Definition techMatches (normalizedTerm : string) (tech : option string) : bool :=
  match tech with
  | Some t => (trim (toLowerCase t) =? normalizedTerm)%string
  | None => false
  end.

Fixpoint evaluate (e : TechStackExpression) (techStack : list (option string)) : bool :=
  match e with
  | TermExpression term =>
      let normalizedTerm := trim (toLowerCase term) in
      existsb (techMatches normalizedTerm) techStack
  | NotExpression expression => negb (evaluate expression techStack)
  | AndExpression lhs rhs => evaluate lhs techStack && evaluate rhs techStack
  | OrExpression lhs rhs => evaluate lhs techStack || evaluate rhs techStack
  end.

(** ** Tokenizer *)

(** The local variables of [tokenize]. *)
Record TokenizerState : Type := mkTokenizerState {
  tkTokens : list string;
  tkCurrentToken : string;
  tkInQuotes : bool
}.

(** [if (currentToken.trim()) { tokens.push(currentToken.trim()); currentToken = '' }] *)
Definition flushToken (st : TokenizerState) : TokenizerState :=
  if truthy (trim (tkCurrentToken st))
  then mkTokenizerState (tkTokens st ++ [trim (tkCurrentToken st)]) EmptyString (tkInQuotes st)
  else st.

Definition pushToken (t : string) (st : TokenizerState) : TokenizerState :=
  mkTokenizerState (tkTokens st ++ [t]) (tkCurrentToken st) (tkInQuotes st).

(** One iteration of the loop over the characters of the expression. *)
Definition tokenizeChar (st : TokenizerState) (char : ascii) : TokenizerState :=
  if Ascii.eqb char dquote then
    mkTokenizerState (tkTokens st) (tkCurrentToken st) (negb (tkInQuotes st))
  else if tkInQuotes st then
    mkTokenizerState (tkTokens st) (appendChar (tkCurrentToken st) char) (tkInQuotes st)
  else if Ascii.eqb char lparen || Ascii.eqb char rparen then
    pushToken (String char EmptyString) (flushToken st)
  else if Ascii.eqb char space || Ascii.eqb char tab then
    flushToken st
  else
    mkTokenizerState (tkTokens st) (appendChar (tkCurrentToken st) char) (tkInQuotes st).

Fixpoint tokenizeLoop (st : TokenizerState) (expression : string) : TokenizerState :=
  match expression with
  | EmptyString => st
  | String char rest => tokenizeLoop (tokenizeChar st char) rest
  end.

Definition tokenizeInit : TokenizerState := mkTokenizerState [] EmptyString false.

Definition tokenize (expression : string) : list string :=
  tkTokens (flushToken (tokenizeLoop tokenizeInit expression)).

(** ** Parser *)

(** The outcome of a production: the value it returns or the message of the
    [Error] it throws, each with [currentIndex] as the call leaves it. *)
Inductive outcome (A : Type) : Type :=
| Returns (a : A) (currentIndex : nat)
| Throws (message : string) (currentIndex : nat)
| OutOfFuel.

Arguments Returns {A} a currentIndex.
Arguments Throws {A} message currentIndex.
Arguments OutOfFuel {A}.

(** [token?.toUpperCase() === operator.toUpperCase()] *)
Definition isOperator (token : option string) (operator : string) : bool :=
  match token with
  | Some t => (toUpperCase t =? toUpperCase operator)%string
  | None => false
  end.

(** [token === s] for a token that may be [null]. *)
Definition tokenIs (token : option string) (s : string) : bool :=
  match token with
  | Some t => (t =? s)%string
  | None => false
  end.

Section Productions.

Variable tokens : list string.

Definition currentToken (currentIndex : nat) : option string :=
  if currentIndex <? List.length tokens then nth_error tokens currentIndex else None.

Definition consumeToken (currentIndex : nat) : nat := S currentIndex.

(** The productions.  [parseOrLoop] and [parseAndLoop] are the [while] loops
    of [parseOrExpression] and [parseAndExpression], entered with the value
    of the variable [left] (here [lhs]; [rhs] is [right]). *)
Fixpoint parseOrExpression (fuel : nat) (idx : nat) : outcome TechStackExpression :=
  match fuel with
  | O => OutOfFuel
  | S fuel =>
      match parseAndExpression fuel idx with
      | Returns lhs idx => parseOrLoop fuel lhs idx
      | err => err
      end
  end

with parseOrLoop (fuel : nat) (lhs : TechStackExpression) (idx : nat)
  : outcome TechStackExpression :=
  match fuel with
  | O => OutOfFuel
  | S fuel =>
      if isOperator (currentToken idx) "OR" then
        match parseAndExpression fuel (consumeToken idx) with
        | Returns rhs idx => parseOrLoop fuel (OrExpression lhs rhs) idx
        | err => err
        end
      else Returns lhs idx
  end

with parseAndExpression (fuel : nat) (idx : nat) : outcome TechStackExpression :=
  match fuel with
  | O => OutOfFuel
  | S fuel =>
      match parseNotExpression fuel idx with
      | Returns lhs idx => parseAndLoop fuel lhs idx
      | err => err
      end
  end

with parseAndLoop (fuel : nat) (lhs : TechStackExpression) (idx : nat)
  : outcome TechStackExpression :=
  match fuel with
  | O => OutOfFuel
  | S fuel =>
      if isOperator (currentToken idx) "AND" then
        match parseNotExpression fuel (consumeToken idx) with
        | Returns rhs idx => parseAndLoop fuel (AndExpression lhs rhs) idx
        | err => err
        end
      else Returns lhs idx
  end

with parseNotExpression (fuel : nat) (idx : nat) : outcome TechStackExpression :=
  match fuel with
  | O => OutOfFuel
  | S fuel =>
      if isOperator (currentToken idx) "NOT" then
        match parseNotExpression fuel (consumeToken idx) with
        | Returns expression idx => Returns (NotExpression expression) idx
        | err => err
        end
      else parsePrimaryExpression fuel idx
  end

with parsePrimaryExpression (fuel : nat) (idx : nat) : outcome TechStackExpression :=
  match fuel with
  | O => OutOfFuel
  | S fuel =>
      let token := currentToken idx in
      if tokenIs token "(" then
        match parseOrExpression fuel (consumeToken idx) with
        | Returns expression idx =>
            if negb (tokenIs (currentToken idx) ")")
            then Throws "Missing closing parenthesis" idx
            else Returns expression (consumeToken idx)
        | err => err
        end
      else if tokenIs token ")" then
        Throws "Unexpected closing parenthesis" idx
      else
        match token with
        | None => Throws "Unexpected end of expression" idx
        | Some t =>
            if negb (truthy t) then
              Throws "Unexpected end of expression" idx
            else if isOperator token "AND" || isOperator token "OR" then
              Throws ("Unexpected operator: " ++ t)%string idx
            else Returns (TermExpression t) (consumeToken idx)
        end
  end.

End Productions.

(** The fields of a parser object. *)
Record TechStackExpressionParser : Type := mkParser {
  tokens : list string;
  currentIndex : nat
}.

Record ParseResult : Type := mkParseResult {
  expression : option TechStackExpression;
  isValid : bool;
  errorMessage : option string
}.

(** The body of the [try] block of [parse]. *)
Definition tryParse (tokens : list string) (fuel : nat) : outcome TechStackExpression :=
  match parseOrExpression tokens fuel 0 with
  | Returns result idx =>
      if idx <? List.length tokens
      then Throws "Unexpected tokens after parsing" idx
      else Returns result idx
  | err => err
  end.

(** [parse], with the tokenizer method and the call-depth budget as
    parameters.  The result is paired with the parser object as the call
    leaves it; [None] stands for a budget that ran out.  Everything thrown
    in the [try] block is an [Error], so the [catch] clause takes its
    message. *)
Definition parseUsing (tokenizer : string -> list string) (fuel : list string -> nat)
    (this : TechStackExpressionParser) (expression : string)
  : option (ParseResult * TechStackExpressionParser) :=
  if negb (truthy expression) || (trim expression =? EmptyString)%string then
    Some (mkParseResult None true None, this)
  else
    let tokens := tokenizer expression in
    match tryParse tokens (fuel tokens) with
    | Returns result idx =>
        Some (mkParseResult (Some result) true None, mkParser tokens idx)
    | Throws message idx =>
        Some (mkParseResult (Some (TermExpression expression)) false (Some message),
              mkParser tokens idx)
    | OutOfFuel => None
    end.

(** A call-depth budget that every token sequence is parsed within. *)
Definition enoughFuel (tokens : list string) : nat := 4 * List.length tokens + 4.

Definition parse : TechStackExpressionParser -> string ->
                   option (ParseResult * TechStackExpressionParser) :=
  parseUsing tokenize enoughFuel.

(** A string literal in double quotes, as the user types it. *)
Definition quoted (s : string) : string :=
  String dquote (s ++ String dquote EmptyString)%string.

(** [new TechStackExpressionParser()] *)
Definition newParser : TechStackExpressionParser := mkParser [] 0.

(** ** The runs of the productions

    The calls the productions make to each other, and the relation between
    a call and its outcome.  [Run] has one rule per path through a
    production; it is the graph of the functions above once the call-depth
    budget is large enough ([exec_Run], [Run_exec]). *)

Inductive call : Type :=
| CallOr (idx : nat)
| CallOrLoop (lhs : TechStackExpression) (idx : nat)
| CallAnd (idx : nat)
| CallAndLoop (lhs : TechStackExpression) (idx : nat)
| CallNot (idx : nat)
| CallPrimary (idx : nat).

Definition callIndex (c : call) : nat :=
  match c with
  | CallOr i | CallOrLoop _ i | CallAnd i | CallAndLoop _ i | CallNot i | CallPrimary i => i
  end.

(** The production a call stands for. *)
Definition exec (tokens : list string) (fuel : nat) (c : call) : outcome TechStackExpression :=
  match c with
  | CallOr i => parseOrExpression tokens fuel i
  | CallOrLoop l i => parseOrLoop tokens fuel l i
  | CallAnd i => parseAndExpression tokens fuel i
  | CallAndLoop l i => parseAndLoop tokens fuel l i
  | CallNot i => parseNotExpression tokens fuel i
  | CallPrimary i => parsePrimaryExpression tokens fuel i
  end.

Section Runs.

Variable tokens : list string.

Inductive Run : call -> outcome TechStackExpression -> Prop :=
| RunOr_throw i m j :
    Run (CallAnd i) (Throws m j) -> Run (CallOr i) (Throws m j)
| RunOr_loop i l j r :
    Run (CallAnd i) (Returns l j) -> Run (CallOrLoop l j) r -> Run (CallOr i) r
| RunOrLoop_done l i :
    isOperator (currentToken tokens i) "OR" = false -> Run (CallOrLoop l i) (Returns l i)
| RunOrLoop_throw l i m j :
    isOperator (currentToken tokens i) "OR" = true ->
    Run (CallAnd (S i)) (Throws m j) -> Run (CallOrLoop l i) (Throws m j)
| RunOrLoop_more l i rh j r :
    isOperator (currentToken tokens i) "OR" = true ->
    Run (CallAnd (S i)) (Returns rh j) ->
    Run (CallOrLoop (OrExpression l rh) j) r -> Run (CallOrLoop l i) r
| RunAnd_throw i m j :
    Run (CallNot i) (Throws m j) -> Run (CallAnd i) (Throws m j)
| RunAnd_loop i l j r :
    Run (CallNot i) (Returns l j) -> Run (CallAndLoop l j) r -> Run (CallAnd i) r
| RunAndLoop_done l i :
    isOperator (currentToken tokens i) "AND" = false -> Run (CallAndLoop l i) (Returns l i)
| RunAndLoop_throw l i m j :
    isOperator (currentToken tokens i) "AND" = true ->
    Run (CallNot (S i)) (Throws m j) -> Run (CallAndLoop l i) (Throws m j)
| RunAndLoop_more l i rh j r :
    isOperator (currentToken tokens i) "AND" = true ->
    Run (CallNot (S i)) (Returns rh j) ->
    Run (CallAndLoop (AndExpression l rh) j) r -> Run (CallAndLoop l i) r
| RunNot_not i e j :
    isOperator (currentToken tokens i) "NOT" = true ->
    Run (CallNot (S i)) (Returns e j) -> Run (CallNot i) (Returns (NotExpression e) j)
| RunNot_throw i m j :
    isOperator (currentToken tokens i) "NOT" = true ->
    Run (CallNot (S i)) (Throws m j) -> Run (CallNot i) (Throws m j)
| RunNot_primary i r :
    isOperator (currentToken tokens i) "NOT" = false -> Run (CallPrimary i) r -> Run (CallNot i) r
| RunPrimary_group i e j :
    tokenIs (currentToken tokens i) "(" = true ->
    Run (CallOr (S i)) (Returns e j) -> tokenIs (currentToken tokens j) ")" = true ->
    Run (CallPrimary i) (Returns e (S j))
| RunPrimary_missing i e j :
    tokenIs (currentToken tokens i) "(" = true ->
    Run (CallOr (S i)) (Returns e j) -> tokenIs (currentToken tokens j) ")" = false ->
    Run (CallPrimary i) (Throws "Missing closing parenthesis" j)
| RunPrimary_inner i m j :
    tokenIs (currentToken tokens i) "(" = true ->
    Run (CallOr (S i)) (Throws m j) -> Run (CallPrimary i) (Throws m j)
| RunPrimary_close i :
    tokenIs (currentToken tokens i) "(" = false -> tokenIs (currentToken tokens i) ")" = true ->
    Run (CallPrimary i) (Throws "Unexpected closing parenthesis" i)
| RunPrimary_end i :
    currentToken tokens i = None ->
    Run (CallPrimary i) (Throws "Unexpected end of expression" i)
| RunPrimary_empty i t :
    tokenIs (currentToken tokens i) "(" = false -> tokenIs (currentToken tokens i) ")" = false ->
    currentToken tokens i = Some t -> truthy t = false ->
    Run (CallPrimary i) (Throws "Unexpected end of expression" i)
| RunPrimary_operator i t :
    tokenIs (currentToken tokens i) "(" = false -> tokenIs (currentToken tokens i) ")" = false ->
    currentToken tokens i = Some t -> truthy t = true ->
    isOperator (currentToken tokens i) "AND" || isOperator (currentToken tokens i) "OR" = true ->
    Run (CallPrimary i) (Throws ("Unexpected operator: " ++ t)%string i)
| RunPrimary_term i t :
    tokenIs (currentToken tokens i) "(" = false -> tokenIs (currentToken tokens i) ")" = false ->
    currentToken tokens i = Some t -> truthy t = true ->
    isOperator (currentToken tokens i) "AND" || isOperator (currentToken tokens i) "OR" = false ->
    Run (CallPrimary i) (Returns (TermExpression t) (S i)).

End Runs.

(** The calls that may return without consuming a token. *)
Definition isLoop (c : call) : bool :=
  match c with
  | CallOrLoop _ _ | CallAndLoop _ _ => true
  | _ => false
  end.

(** Call depth a call needs at most: four levels per remaining token and
    the levels between the production and [parsePrimaryExpression]. *)
Definition callRank (c : call) : nat :=
  match c with
  | CallOr _ => 4
  | CallAnd _ => 3
  | CallNot _ => 2
  | CallPrimary _ | CallOrLoop _ _ | CallAndLoop _ _ => 1
  end.

Definition callDepth (tokens : list string) (c : call) : nat :=
  4 * (List.length tokens - callIndex c) + callRank c.

(** ** Properties of runs and of the tokenizer state *)

(** The index a call leaves behind: within the tokens, not before the
    index it started from, and past it when a production returns. *)
Definition advances (tokens : list string) (c : call) (r : outcome TechStackExpression) : Prop :=
  match r with
  | Returns _ j =>
      callIndex c <= j <= List.length tokens /\ (isLoop c = false -> callIndex c < j)
  | Throws _ j => callIndex c <= j <= List.length tokens
  | OutOfFuel => False
  end.

(** What every token satisfies: no quote character, and not empty. *)
Definition wellFormedToken (t : string) : Prop :=
  hasChar dquote t = false /\ truthy t = true.

(** The invariant of the loop of [tokenize]. *)
Definition tokenizerInvariant (st : TokenizerState) : Prop :=
  Forall wellFormedToken (tkTokens st) /\ hasChar dquote (tkCurrentToken st) = false.

(** ** Keywords and the layers of a tree *)

(** [t] is AND, OR or NOT in some letter case. *)
Definition isKeyword (t : string) : bool :=
  isOperator (Some t) "AND" || isOperator (Some t) "OR" || isOperator (Some t) "NOT".

Fixpoint hasKeywordTerm (e : TechStackExpression) : bool :=
  match e with
  | TermExpression t => isKeyword t
  | NotExpression e => hasKeywordTerm e
  | AndExpression l r | OrExpression l r => hasKeywordTerm l || hasKeywordTerm r
  end.

(** What a call is entered with: a loop with a keyword-free left operand,
    and [parsePrimaryExpression] behind the NOT test of
    [parseNotExpression]. *)
Definition keywordFreeCall (tokens : list string) (c : call) : Prop :=
  match c with
  | CallOrLoop l _ | CallAndLoop l _ => hasKeywordTerm l = false
  | CallPrimary i => isOperator (currentToken tokens i) "NOT" = false
  | _ => True
  end.

Definition keywordFreeOutcome (r : outcome TechStackExpression) : Prop :=
  match r with
  | Returns e _ => hasKeywordTerm e = false
  | _ => True
  end.

(** The three layers of a tree built without parentheses: chains of NOT
    over a term, conjunctions of such chains nested to the left, and
    disjunctions of such conjunctions nested to the left. *)
Fixpoint notLevel (e : TechStackExpression) : bool :=
  match e with
  | TermExpression _ => true
  | NotExpression e => notLevel e
  | _ => false
  end.

Fixpoint andLevel (e : TechStackExpression) : bool :=
  match e with
  | AndExpression l r => andLevel l && notLevel r
  | _ => notLevel e
  end.

Fixpoint orLevel (e : TechStackExpression) : bool :=
  match e with
  | OrExpression l r => orLevel l && andLevel r
  | _ => andLevel e
  end.

(** The layer each production builds. *)
Definition levelOfCall (c : call) : TechStackExpression -> bool :=
  match c with
  | CallOr _ | CallOrLoop _ _ => orLevel
  | CallAnd _ | CallAndLoop _ _ => andLevel
  | CallNot _ | CallPrimary _ => notLevel
  end.

Definition levelOnEntry (c : call) : Prop :=
  match c with
  | CallOrLoop l _ => orLevel l = true
  | CallAndLoop l _ => andLevel l = true
  | _ => True
  end.

Definition levelOnReturn (c : call) (r : outcome TechStackExpression) : Prop :=
  match r with
  | Returns e _ => levelOfCall c e = true
  | _ => True
  end.

(** The tag list of the precedence tests. *)
Definition sampleTechStack : list (option string) :=
  [Some "Python"; Some "Django"].

(** ** The grammar *)

(** The grammar of the filter language over token sequences, with the tree
    each sentence stands for:
<<
    Or      := And ( 'OR' And )*
    And     := Not ( 'AND' Not )*
    Not     := 'NOT' Not | Primary
    Primary := '(' Or ')' | TERM
>>
    The repetitions are the tail symbols, which carry the operand built so
    far; keywords are matched in any letter case; a TERM is a non-empty
    token that is neither a parenthesis nor a keyword. *)
Inductive symbol : Type :=
| SymOr
| SymOrTail (lhs : TechStackExpression)
| SymAnd
| SymAndTail (lhs : TechStackExpression)
| SymNot
| SymPrimary.

Definition isTermToken (t : string) : bool :=
  truthy t && negb (t =? "(")%string && negb (t =? ")")%string && negb (isKeyword t).

Inductive Derives : symbol -> list string -> TechStackExpression -> Prop :=
| DerivesOr ts1 l ts2 e :
    Derives SymAnd ts1 l -> Derives (SymOrTail l) ts2 e ->
    Derives SymOr (ts1 ++ ts2) e
| DerivesOrTail_nil l :
    Derives (SymOrTail l) [] l
| DerivesOrTail_cons l op ts1 r ts2 e :
    isOperator (Some op) "OR" = true ->
    Derives SymAnd ts1 r -> Derives (SymOrTail (OrExpression l r)) ts2 e ->
    Derives (SymOrTail l) (op :: ts1 ++ ts2) e
| DerivesAnd ts1 l ts2 e :
    Derives SymNot ts1 l -> Derives (SymAndTail l) ts2 e ->
    Derives SymAnd (ts1 ++ ts2) e
| DerivesAndTail_nil l :
    Derives (SymAndTail l) [] l
| DerivesAndTail_cons l op ts1 r ts2 e :
    isOperator (Some op) "AND" = true ->
    Derives SymNot ts1 r -> Derives (SymAndTail (AndExpression l r)) ts2 e ->
    Derives (SymAndTail l) (op :: ts1 ++ ts2) e
| DerivesNot_not op ts e :
    isOperator (Some op) "NOT" = true ->
    Derives SymNot ts e -> Derives SymNot (op :: ts) (NotExpression e)
| DerivesNot_primary ts e :
    Derives SymPrimary ts e -> Derives SymNot ts e
| DerivesPrimary_group ts e :
    Derives SymOr ts e -> Derives SymPrimary ("(" :: ts ++ [")"]) e
| DerivesPrimary_term t :
    isTermToken t = true -> Derives SymPrimary [t] (TermExpression t).

(** An input is well formed when its tokens are a sentence of [Or]. *)
Definition wellFormed (raw : string) (e : TechStackExpression) : Prop :=
  Derives SymOr (tokenize raw) e.

(** The production that parses a symbol. *)
Definition callOf (sym : symbol) (i : nat) : call :=
  match sym with
  | SymOr => CallOr i
  | SymOrTail l => CallOrLoop l i
  | SymAnd => CallAnd i
  | SymAndTail l => CallAndLoop l i
  | SymNot => CallNot i
  | SymPrimary => CallPrimary i
  end.

(** What may follow a sentence of a symbol for the production to stop
    there: the loops go on as long as they see their operator. *)
Definition follow (sym : symbol) (next : option string) : Prop :=
  match sym with
  | SymOr | SymOrTail _ => isOperator next "OR" = false /\ isOperator next "AND" = false
  | SymAnd | SymAndTail _ => isOperator next "AND" = false
  | SymNot | SymPrimary => True
  end.

(** [ts] are the tokens from index [i] on. *)
Definition segment (tokens : list string) (i : nat) (ts : list string) : Prop :=
  forall k, k < List.length ts -> nth_error tokens (i + k) = nth_error ts k.

(** The tokens from index [i] up to, not including, index [j]. *)
Definition slice (tokens : list string) (i j : nat) : list string :=
  firstn (j - i) (skipn i tokens).

(** The symbol a production parses. *)
Definition symbolOf (c : call) : symbol :=
  match c with
  | CallOr _ => SymOr
  | CallOrLoop l _ => SymOrTail l
  | CallAnd _ => SymAnd
  | CallAndLoop l _ => SymAndTail l
  | CallNot _ => SymNot
  | CallPrimary _ => SymPrimary
  end.

Definition derivesOutcome (tokens : list string) (c : call) (r : outcome TechStackExpression) : Prop :=
  match r with
  | Returns e j => Derives (symbolOf c) (slice tokens (callIndex c) j) e
  | _ => True
  end.

(** [parsePrimaryExpression] is entered behind the NOT test of
    [parseNotExpression]. *)
Definition primaryEntry (tokens : list string) (c : call) : Prop :=
  match c with
  | CallPrimary i => isOperator (currentToken tokens i) "NOT" = false
  | _ => True
  end.

(** ** Syntax errors *)




(** ** The call stack

    The engine runs the productions on a call stack of bounded depth.  A
    call there is no room for raises a [RangeError]; the productions catch
    nothing, so it reaches the [catch] clause of [parse] as every other
    [Error] does, and [parse] returns the fallback result with the message
    of the [RangeError]. *)

(** The message of the [RangeError] (the text V8 gives it). *)
Definition stackOverflowMessage : string := "Maximum call stack size exceeded".

(** The productions on a call stack with room for [stack] more calls of
    productions (each with the calls of [currentToken], [isOperator] and
    [consumeToken] it makes).  Entering a production takes one; the [while]
    loops [CallOrLoop] and [CallAndLoop] run in the frame of their
    production and take none.  [fuel] bounds the steps, as in the
    productions above. *)
Fixpoint execOnStack (tokens : list string) (fuel stack : nat) (c : call) {struct fuel}
  : outcome TechStackExpression :=
  match fuel with
  | O => OutOfFuel
  | S fuel =>
      match c with
      | CallOr idx =>
          match stack with
          | O => Throws stackOverflowMessage idx
          | S stack =>
              match execOnStack tokens fuel stack (CallAnd idx) with
              | Returns lhs idx => execOnStack tokens fuel stack (CallOrLoop lhs idx)
              | err => err
              end
          end
      | CallOrLoop lhs idx =>
          if isOperator (currentToken tokens idx) "OR" then
            match execOnStack tokens fuel stack (CallAnd (consumeToken idx)) with
            | Returns rhs idx =>
                execOnStack tokens fuel stack (CallOrLoop (OrExpression lhs rhs) idx)
            | err => err
            end
          else Returns lhs idx
      | CallAnd idx =>
          match stack with
          | O => Throws stackOverflowMessage idx
          | S stack =>
              match execOnStack tokens fuel stack (CallNot idx) with
              | Returns lhs idx => execOnStack tokens fuel stack (CallAndLoop lhs idx)
              | err => err
              end
          end
      | CallAndLoop lhs idx =>
          if isOperator (currentToken tokens idx) "AND" then
            match execOnStack tokens fuel stack (CallNot (consumeToken idx)) with
            | Returns rhs idx =>
                execOnStack tokens fuel stack (CallAndLoop (AndExpression lhs rhs) idx)
            | err => err
            end
          else Returns lhs idx
      | CallNot idx =>
          match stack with
          | O => Throws stackOverflowMessage idx
          | S stack =>
              if isOperator (currentToken tokens idx) "NOT" then
                match execOnStack tokens fuel stack (CallNot (consumeToken idx)) with
                | Returns expression idx => Returns (NotExpression expression) idx
                | err => err
                end
              else execOnStack tokens fuel stack (CallPrimary idx)
          end
      | CallPrimary idx =>
          match stack with
          | O => Throws stackOverflowMessage idx
          | S stack =>
              let token := currentToken tokens idx in
              if tokenIs token "(" then
                match execOnStack tokens fuel stack (CallOr (consumeToken idx)) with
                | Returns expression idx =>
                    if negb (tokenIs (currentToken tokens idx) ")")
                    then Throws "Missing closing parenthesis" idx
                    else Returns expression (consumeToken idx)
                | err => err
                end
              else if tokenIs token ")" then
                Throws "Unexpected closing parenthesis" idx
              else
                match token with
                | None => Throws "Unexpected end of expression" idx
                | Some t =>
                    if negb (truthy t) then
                      Throws "Unexpected end of expression" idx
                    else if isOperator token "AND" || isOperator token "OR" then
                      Throws ("Unexpected operator: " ++ t)%string idx
                    else Returns (TermExpression t) (consumeToken idx)
                end
          end
      end
  end.

(** The body of the [try] block of [parse] on that stack. *)
Definition tryParseOnStack (tokens : list string) (fuel stack : nat)
  : outcome TechStackExpression :=
  match execOnStack tokens fuel stack (CallOr 0) with
  | Returns result idx =>
      if idx <? List.length tokens
      then Throws "Unexpected tokens after parsing" idx
      else Returns result idx
  | err => err
  end.

(** [parse] called with room for [stack] calls of productions on the call
    stack.  As in [parseUsing], [None] stands for a step budget that ran
    out; with [enoughFuel] it does not ([parseOnStack_total]). *)
Definition parseOnStack (stack : nat) (this : TechStackExpressionParser)
    (expression : string) : option (ParseResult * TechStackExpressionParser) :=
  if negb (truthy expression) || (trim expression =? EmptyString)%string then
    Some (mkParseResult None true None, this)
  else
    let tokens := tokenize expression in
    match tryParseOnStack tokens (enoughFuel tokens) stack with
    | Returns result idx =>
        Some (mkParseResult (Some result) true None, mkParser tokens idx)
    | Throws message idx =>
        Some (mkParseResult (Some (TermExpression expression)) false (Some message),
              mkParser tokens idx)
    | OutOfFuel => None
    end.

(** Room on the stack that is enough for a call: four calls for each
    remaining token, and the calls between the production and
    [parsePrimaryExpression]. *)
Definition stackRank (c : call) : nat :=
  match c with
  | CallOr _ => 4
  | CallAnd _ => 3
  | CallNot _ => 2
  | CallPrimary _ => 1
  | CallOrLoop _ _ | CallAndLoop _ _ => 0
  end.

Definition stackDepth (tokens : list string) (c : call) : nat :=
  4 * (List.length tokens - callIndex c) + stackRank c.

(** [s] with [n] times the character [c] before it. *)
Fixpoint repeatChar (c : ascii) (n : nat) (s : string) : string :=
  match n with
  | O => s
  | S n => String c (repeatChar c n s)
  end.

(** The term x within [n] pairs of parentheses. *)
Definition nestedTerm (n : nat) : string :=
  repeatChar lparen n (String "x" (repeatChar rparen n EmptyString)).

(** ** The job list: filter predicate, range label, page sizes

    [job-list.component.ts].  [JSON.parse(filter)] is the object that
    [applyFilters] serialized: six string fields.  The page, page size and
    length of the paginator are natural numbers. *)

(** [toLowerCase().trim()], the normal form of a tag or term. *)
Definition normalize (t : string) : string := trim (toLowerCase t).

(** [s.startsWith(searchString)] and [s.includes(searchString)]. *)
Fixpoint startsWith (s searchString : string) : bool :=
  match searchString, s with
  | EmptyString, _ => true
  | String c r, String d s' => Ascii.eqb d c && startsWith s' r
  | String _ _, EmptyString => false
  end.

Fixpoint includes (s searchString : string) : bool :=
  startsWith s searchString ||
  match s with
  | EmptyString => false
  | String _ r => includes r searchString
  end.

(** [job.visa_sponsorship]: a boolean, a string, or [null]/[undefined]. *)
Inductive VisaSponsorship : Type :=
| VisaBoolean (b : bool)
| VisaString (s : string)
| VisaMissing.

(** The fields of a [Job] that the functions below read.  The arrays are
    optional and may hold missing entries, as the code guards for both. *)
Record Job : Type := mkJob {
  id : string;
  company_name : option string;
  job_titles : option (list (option string));
  locations : option (list (option string));
  remote_policy : option string;
  tech_stack : option (list (option string));
  visa_sponsorship : VisaSponsorship
}.

Record Filters : Type := mkFilters {
  company : string;
  jobTitle : string;
  location : string;
  remotePolicy : string;
  techStack : string;
  visaSponsorship : string
}.

(** A call of [parse] on a call stack that is deep enough for the input
    ([parseOnStack] is the call on a stack of a given depth): [parse] has a
    result then ([parseCall_parse]), so the second branch is not taken. *)
Definition parseCall (this : TechStackExpressionParser) (raw : string)
  : ParseResult * TechStackExpressionParser :=
  match parse this raw with
  | Some p => p
  | None =>
      (mkParseResult (Some (TermExpression raw)) false
         (Some "Maximum call stack size exceeded"),
       mkParser (tokenize raw) 0)
  end.

(** [value?.toLowerCase().includes(needle.toLowerCase())] as a condition:
    a missing value gives [undefined], which is falsy. *)
Definition includesIgnoreCase (value : option string) (needle : string) : bool :=
  match value with
  | Some v => includes (toLowerCase v) (toLowerCase needle)
  | None => false
  end.

Definition companyMatch (job : Job) (filters : Filters) : bool :=
  negb (truthy (company filters)) ||
  includes (match company_name job with Some n => toLowerCase n | None => EmptyString end)
           (toLowerCase (company filters)).

Definition jobTitleMatch (job : Job) (filters : Filters) : bool :=
  negb (truthy (jobTitle filters)) ||
  match job_titles job with
  | Some titles =>
      existsb (fun title => includesIgnoreCase title (jobTitle filters)) titles
  | None => false
  end.

Definition locationMatch (job : Job) (filters : Filters) : bool :=
  negb (truthy (location filters)) ||
  match locations job with
  | Some locs => existsb (fun loc => includesIgnoreCase loc (location filters)) locs
  | None => false
  end.

Definition remotePolicyMatch (job : Job) (filters : Filters) : bool :=
  negb (truthy (remotePolicy filters)) ||
  match remote_policy job with
  | Some p => (p =? remotePolicy filters)%string
  | None => false
  end.

(** The tech-stack part of the predicate, with the parser object after the
    call. *)
Definition techStackMatch (this : TechStackExpressionParser) (job : Job) (filters : Filters)
  : bool * TechStackExpressionParser :=
  if truthy (techStack filters) then
    let (parseResult, this') := parseCall this (techStack filters) in
    match expression parseResult with
    | Some e => (evaluate e (match tech_stack job with Some l => l | None => [] end), this')
    | None => (true, this')
    end
  else (true, this).

Definition visaSponsorshipMatch (job : Job) (filters : Filters) : bool :=
  if truthy (visaSponsorship filters) then
    if (visaSponsorship filters =? "True")%string then
      match visa_sponsorship job with VisaBoolean true => true | _ => false end
    else if (visaSponsorship filters =? "False")%string then
      match visa_sponsorship job with VisaBoolean false => true | _ => false end
    else if (visaSponsorship filters =? "Not specified")%string then
      match visa_sponsorship job with
      | VisaString v => (v =? "Not specified")%string || (v =? EmptyString)%string
      | VisaMissing => true
      | VisaBoolean _ => false
      end
    else true
  else true.

(** The function that [setupFilterPredicate] installs. *)
Definition filterPredicate (this : TechStackExpressionParser) (job : Job) (filters : Filters)
  : bool * TechStackExpressionParser :=
  let (techStackMatched, this') := techStackMatch this job filters in
  (companyMatch job filters && jobTitleMatch job filters && locationMatch job filters &&
   remotePolicyMatch job filters && techStackMatched && visaSponsorshipMatch job filters,
   this').

(** A non-negative integer in decimal, as a template literal prints it. *)
Definition numberToString (n : nat) : string := NilEmpty.string_of_uint (Nat.to_uint n).

(** [startIndex] and [endIndex] of [getCustomRangeLabel]. *)
Definition rangeStartIndex (page pageSize : nat) : nat := page * pageSize.

Definition rangeEndIndex (page pageSize length : nat) : nat :=
  let startIndex := rangeStartIndex page pageSize in
  if startIndex <? length then Nat.min (startIndex + pageSize) length
  else startIndex + pageSize.

Definition getCustomRangeLabel (page pageSize length : nat) : string :=
  if (length =? 0) || (pageSize =? 0) then
    ("0 of " ++ numberToString length)%string
  else if length <=? pageSize then
    ("All " ++ numberToString length ++ " items")%string
  else
    (numberToString (rangeStartIndex page pageSize + 1) ++ " - " ++
     numberToString (rangeEndIndex page pageSize length) ++ " of " ++
     numberToString length)%string.

Definition baseOptions : list nat := [5; 10; 25; 50; 100].

(** [a || b] on numbers that may be [undefined]: the first one that is
    neither missing nor zero. *)
Definition orNumber (a : option nat) (b : nat) : nat :=
  match a with
  | Some (S n) => S n
  | _ => b
  end.

(** [updatePageSizeOptions]: the new value of [pageSizeOptions], from the
    lengths of [dataSource.filteredData] and [dataSource.data]. *)
Definition updatePageSizeOptions (filteredDataLength allDataLength : option nat) : list nat :=
  let dataLength := orNumber filteredDataLength (orNumber allDataLength 0) in
  if 0 <? dataLength then
    if negb (existsb (Nat.eqb dataLength) baseOptions) && (last baseOptions 0 <? dataLength)
    then baseOptions ++ [dataLength]
    else if dataLength <=? last baseOptions 0
    then baseOptions ++ [dataLength]
    else baseOptions
  else baseOptions.

(** ** The comparison service

    [comparison.service.ts].  The text kept in [localStorage] is modelled by
    the JSON value it parses to, or [RawInvalid] when [JSON.parse] throws on
    it (the empty text included); a storage that is not available throws
    on every access. *)

Inductive jsonItem : Type :=
| ItemString (s : string)
| ItemOther.

Inductive json : Type :=
| JArray (items : list jsonItem)
| JOther.

Inductive rawItem : Type :=
| RawJson (v : json)
| RawInvalid.

Record Storage : Type := mkStorage {
  available : bool;
  item : option rawItem
}.

Record ComparisonService : Type := mkComparisonService {
  _jobIds : list string;
  showComparisonView : bool;
  localStorage : Storage
}.

(** [parsed.filter(id => typeof id === 'string')] *)
Fixpoint stringItems (items : list jsonItem) : list string :=
  match items with
  | [] => []
  | ItemString s :: rest => s :: stringItems rest
  | ItemOther :: rest => stringItems rest
  end.

Definition loadFromStorage (storage : Storage) : list string :=
  if available storage then
    match item storage with
    | Some (RawJson (JArray items)) => stringItems items
    | _ => []
    end
  else [].

(** [localStorage.setItem(STORAGE_KEY, JSON.stringify(ids))] in a [try]. *)
Definition persistIds (ids : list string) (storage : Storage) : Storage :=
  if available storage
  then mkStorage true (Some (RawJson (JArray (map ItemString ids))))
  else storage.

Definition persist (svc : ComparisonService) : ComparisonService :=
  mkComparisonService (_jobIds svc) (showComparisonView svc)
    (persistIds (_jobIds svc) (localStorage svc)).

(** The service as its constructor leaves it. *)
Definition newComparisonService (storage : Storage) : ComparisonService :=
  mkComparisonService (loadFromStorage storage) false storage.

(** [ids.includes(jobId)] *)
Definition includesId (ids : list string) (jobId : string) : bool :=
  existsb (fun x => (x =? jobId)%string) ids.

Definition isInComparison (svc : ComparisonService) (jobId : string) : bool :=
  includesId (_jobIds svc) jobId.

Definition addJob (svc : ComparisonService) (job : Job) : ComparisonService :=
  let ids := _jobIds svc in
  if includesId ids (id job) then svc
  else persist (mkComparisonService (ids ++ [id job]) (showComparisonView svc)
                  (localStorage svc)).

Definition removeJob (svc : ComparisonService) (jobId : string) : ComparisonService :=
  let ids := filter (fun x => negb (x =? jobId)%string) (_jobIds svc) in
  let svc' := persist (mkComparisonService ids (showComparisonView svc) (localStorage svc)) in
  if List.length ids =? 0
  then mkComparisonService (_jobIds svc') false (localStorage svc')
  else svc'.

Definition clearAll (svc : ComparisonService) : ComparisonService :=
  let svc' := persist (mkComparisonService [] (showComparisonView svc) (localStorage svc)) in
  mkComparisonService (_jobIds svc') false (localStorage svc').

Definition reorderJobs (svc : ComparisonService) (newOrder : list Job) : ComparisonService :=
  persist (mkComparisonService (map id newOrder) (showComparisonView svc) (localStorage svc)).

Definition openComparisonView (svc : ComparisonService) : ComparisonService :=
  if 1 <=? List.length (_jobIds svc)
  then mkComparisonService (_jobIds svc) true (localStorage svc)
  else svc.

Definition closeComparisonView (svc : ComparisonService) : ComparisonService :=
  mkComparisonService (_jobIds svc) false (localStorage svc).

Definition count (svc : ComparisonService) : nat := List.length (_jobIds svc).

Definition canCompare (svc : ComparisonService) : bool := 2 <=? List.length (_jobIds svc).

(** [new Map(allJobs.map(j => [j.id, j])).get(jobId)]: of the jobs with that
    id, the one inserted last. *)
Definition byIdGet (allJobs : list Job) (jobId : string) : option Job :=
  find (fun j => (id j =? jobId)%string) (rev allJobs).

Fixpoint presentJobs (resolved : list (option Job)) : list Job :=
  match resolved with
  | [] => []
  | Some j :: rest => j :: presentJobs rest
  | None :: rest => presentJobs rest
  end.

(** The computed signal [jobs], from the jobs of the job service. *)
Definition jobs (svc : ComparisonService) (allJobs : list Job) : list Job :=
  presentJobs (map (byIdGet allJobs) (_jobIds svc)).

(** ** Tags, blanks and keyword spelling *)

(** The normal forms of the tags that are present. *)
Fixpoint tagForms (techStack : list (option string)) : list string :=
  match techStack with
  | [] => []
  | Some t :: rest => normalize t :: tagForms rest
  | None :: rest => tagForms rest
  end.

Definition formsIncluded (forms1 forms2 : list string) : bool :=
  forallb (fun n => existsb (fun m => (m =? n)%string) forms2) forms1.

(** Two tag lists with the same set of normal forms. *)
Definition sameTagForms (techStack1 techStack2 : list (option string)) : bool :=
  formsIncluded (tagForms techStack1) (tagForms techStack2) &&
  formsIncluded (tagForms techStack2) (tagForms techStack1).

(** The space and the tab: the characters that end a token. *)
Definition isBlank (c : ascii) : bool := Ascii.eqb c space || Ascii.eqb c tab.

(** A token without space, tab or parenthesis. *)
Definition plainToken (t : string) : bool :=
  negb (hasChar space t) && negb (hasChar tab t) &&
  negb (hasChar lparen t) && negb (hasChar rparen t).

(** A keyword written in capitals; any other token as it is. *)
Definition canonicalToken (t : string) : string :=
  if isKeyword t then toUpperCase t else t.

(** The outcomes of a run on [tokens] and of the run on the tokens with
    the keywords in capitals: the same value and index, or two errors at
    the same index with the same message, but for the message of an
    unexpected operator, which quotes the token at that index as it is
    written in each list. *)
Definition sameOutcome (tokens : list string)
    (r r' : outcome TechStackExpression) : Prop :=
  match r, r' with
  | Returns e j, Returns e' j' => e = e' /\ j = j'
  | Throws m j, Throws m' j' =>
      j = j' /\
      (m' = m \/
       exists t, currentToken tokens j = Some t /\
                 m = ("Unexpected operator: " ++ t)%string /\
                 m' = ("Unexpected operator: " ++ canonicalToken t)%string)
  | _, _ => False
  end.

(** A string that does not begin with white space. *)
Definition startsClean (s : string) : Prop :=
  match s with
  | EmptyString => True
  | String c _ => isWhiteSpace c = false
  end.

(** A token as [tokenize] pushes it. *)
Definition trimmedToken (t : string) : Prop := trim t = t /\ t <> EmptyString.

(** A parenthesis token or a plain token. *)
Definition parenOrPlain (t : string) : Prop :=
  t = "(" \/ t = ")" \/ plainToken t = true.

(** The state of [tokenize] on an input without quotes. *)
Definition unquotedInvariant (st : TokenizerState) : Prop :=
  tkInQuotes st = false /\
  Forall parenOrPlain (tkTokens st) /\
  plainToken (tkCurrentToken st) = true.

(** [a] is empty or is [b]: a filter field that was cleared or kept. *)
Definition fieldWeaker (a b : string) : bool := negb (truthy a) || (a =? b)%string.

(** [filters'] is [filters] with some of the six fields cleared. *)
Definition weakerFilters (filters' filters : Filters) : bool :=
  fieldWeaker (company filters') (company filters) &&
  fieldWeaker (jobTitle filters') (jobTitle filters) &&
  fieldWeaker (location filters') (location filters) &&
  fieldWeaker (remotePolicy filters') (remotePolicy filters) &&
  fieldWeaker (techStack filters') (techStack filters) &&
  fieldWeaker (visaSponsorship filters') (visaSponsorship filters).

(** The tags of a job, [job.tech_stack || []]. *)
Definition techStackOf (job : Job) : list (option string) :=
  match tech_stack job with Some l => l | None => [] end.

(** The stored ids are the ids of the service. *)
Definition synced (svc : ComparisonService) : Prop :=
  loadFromStorage (localStorage svc) = _jobIds svc.

(** The comparison view is not open on an empty comparison. *)
Definition viewInvariant (svc : ComparisonService) : Prop :=
  showComparisonView svc = true -> _jobIds svc <> [].

(** ** Logo sources and the mobile window of the comparison view

    [logo-url.util.ts] and [comparison-view.component.ts]. *)

Definition genericDomains : list string :=
  [ "lever.co"; "greenhouse.io"; "ashbyhq.com"; "workable.com"; "breezy.hr";
    "bamboohr.com"; "smartrecruiters.com"; "jobvite.com"; "icims.com"; "taleo.net";
    "myworkdayjobs.com"; "ultipro.com"; "recruitee.com"; "personio.de";
    "personio.com"; "workday.com"; "indeed.com"; "linkedin.com"; "angel.co";
    "wellfound.com"; "glassdoor.com"; "monster.com"; "ziprecruiter.com";
    "careers-page.com"; "jobs.github.com"; "stackoverflow.com"; "notion.site";
    "github.com" ].

Definition isGenericJobBoard (domain : string) : bool :=
  existsb (fun generic => includes domain generic) genericDomains.

Section ApplyLinks.

(** [extractDomain] goes through the [URL] class of the platform; it is a
    parameter here: the host name of a link, or [null]. *)
Variable extractDomain : string -> option string.

Fixpoint getDomainFromApplyLinks (applyLinks : list string) : option string :=
  match applyLinks with
  | [] => None
  | link :: rest =>
      match extractDomain link with
      | Some domain =>
          if truthy domain && negb (isGenericJobBoard domain)
          then Some domain
          else getDomainFromApplyLinks rest
      | None => getDomainFromApplyLinks rest
      end
  end.

End ApplyLinks.

(** [array.slice(start, end)] for integers [start] and [end]. *)
Definition sliceIndex (len : nat) (k : Z) : nat :=
  if (k <? 0)%Z then Z.to_nat (Z.max (Z.of_nat len + k) 0)
  else Nat.min (Z.to_nat k) len.

Definition arraySlice {A : Type} (l : list A) (start final : Z) : list A :=
  let k := sliceIndex (List.length l) start in
  let e := sliceIndex (List.length l) final in
  firstn (e - k) (skipn k l).

(** The computed signals of the mobile window, from the signals
    [mobileOffset], [isMobile] and [comparison.jobs]. *)
Definition clampedMobileOffset (mobileOffset : Z) (compared : list Job) : Z :=
  let maxOffset := Z.max 0 (Z.of_nat (List.length compared) - 2) in
  Z.min mobileOffset maxOffset.

Definition displayedJobs (isMobile : bool) (mobileOffset : Z) (compared : list Job)
  : list Job :=
  if isMobile then
    let offset := clampedMobileOffset mobileOffset compared in
    arraySlice compared offset (offset + 2)
  else compared.

Definition showLeftArrow (isMobile : bool) (mobileOffset : Z) (compared : list Job) : bool :=
  isMobile && (0 <? clampedMobileOffset mobileOffset compared)%Z.

Definition showRightArrow (isMobile : bool) (mobileOffset : Z) (compared : list Job) : bool :=
  if negb isMobile then false
  else (clampedMobileOffset mobileOffset compared
        <? Z.max 0 (Z.of_nat (List.length compared) - 2))%Z.

(** The new value of [mobileOffset] after [mobilePrev] and [mobileNext]. *)
Definition mobilePrev (mobileOffset : Z) : Z := Z.max 0 (mobileOffset - 1).

Definition mobileNext (mobileOffset : Z) (compared : list Job) : Z :=
  let maxOffset := Z.max 0 (Z.of_nat (List.length compared) - 2) in
  Z.min maxOffset (mobileOffset + 1).

(** ** Unfolding equations of the productions *)

Section ProductionFacts.

Variable tokens : list string.

Lemma parseOrExpression_S fuel i :
  parseOrExpression tokens (S fuel) i =
  match parseAndExpression tokens fuel i with
  | Returns lhs j => parseOrLoop tokens fuel lhs j
  | err => err
  end.
Proof. reflexivity. Qed.

Lemma parseOrLoop_S fuel lhs i :
  parseOrLoop tokens (S fuel) lhs i =
  if isOperator (currentToken tokens i) "OR" then
    match parseAndExpression tokens fuel (S i) with
    | Returns rhs j => parseOrLoop tokens fuel (OrExpression lhs rhs) j
    | err => err
    end
  else Returns lhs i.
Proof. reflexivity. Qed.

Lemma parseAndExpression_S fuel i :
  parseAndExpression tokens (S fuel) i =
  match parseNotExpression tokens fuel i with
  | Returns lhs j => parseAndLoop tokens fuel lhs j
  | err => err
  end.
Proof. reflexivity. Qed.

Lemma parseAndLoop_S fuel lhs i :
  parseAndLoop tokens (S fuel) lhs i =
  if isOperator (currentToken tokens i) "AND" then
    match parseNotExpression tokens fuel (S i) with
    | Returns rhs j => parseAndLoop tokens fuel (AndExpression lhs rhs) j
    | err => err
    end
  else Returns lhs i.
Proof. reflexivity. Qed.

Lemma parseNotExpression_S fuel i :
  parseNotExpression tokens (S fuel) i =
  if isOperator (currentToken tokens i) "NOT" then
    match parseNotExpression tokens fuel (S i) with
    | Returns e j => Returns (NotExpression e) j
    | err => err
    end
  else parsePrimaryExpression tokens fuel i.
Proof. reflexivity. Qed.

Lemma parsePrimaryExpression_S fuel i :
  parsePrimaryExpression tokens (S fuel) i =
  if tokenIs (currentToken tokens i) "(" then
    match parseOrExpression tokens fuel (S i) with
    | Returns e j =>
        if negb (tokenIs (currentToken tokens j) ")")
        then Throws "Missing closing parenthesis" j
        else Returns e (S j)
    | err => err
    end
  else if tokenIs (currentToken tokens i) ")" then
    Throws "Unexpected closing parenthesis" i
  else
    match currentToken tokens i with
    | None => Throws "Unexpected end of expression" i
    | Some t =>
        if negb (truthy t) then Throws "Unexpected end of expression" i
        else if isOperator (currentToken tokens i) "AND"
                || isOperator (currentToken tokens i) "OR"
        then Throws ("Unexpected operator: " ++ t)%string i
        else Returns (TermExpression t) (S i)
    end.
Proof. reflexivity. Qed.

Lemma exec_O c : exec tokens 0 c = OutOfFuel.
Proof. destruct c; reflexivity. Qed.

Ltac unfold_production H :=
  first [ rewrite parseOrExpression_S in H
        | rewrite parseOrLoop_S in H
        | rewrite parseAndExpression_S in H
        | rewrite parseAndLoop_S in H
        | rewrite parseNotExpression_S in H
        | rewrite parsePrimaryExpression_S in H ].

(** Every outcome other than [OutOfFuel] is the outcome of a run. *)
Lemma exec_Run fuel : forall c r,
  exec tokens fuel c = r -> r <> OutOfFuel -> Run tokens c r.
Proof.
  induction fuel as [|fuel IH]; intros c r Hex Hr.
  - rewrite exec_O in Hex. congruence.
  - destruct c as [i|l i|i|l i|i|i]; cbn [exec] in Hex; unfold_production Hex.
    + destruct (parseAndExpression tokens fuel i) as [l j|m j|] eqn:E; subst r.
      * eapply RunOr_loop; [apply (IH (CallAnd i)); [exact E|discriminate]|].
        apply (IH (CallOrLoop l j)); [reflexivity|exact Hr].
      * apply RunOr_throw. apply (IH (CallAnd i)); [exact E|discriminate].
      * congruence.
    + destruct (isOperator (currentToken tokens i) "OR") eqn:Hop.
      * destruct (parseAndExpression tokens fuel (S i)) as [rh j|m j|] eqn:E; subst r.
        -- eapply RunOrLoop_more; [exact Hop| |].
           ++ apply (IH (CallAnd (S i))); [exact E|discriminate].
           ++ apply (IH (CallOrLoop (OrExpression l rh) j)); [reflexivity|exact Hr].
        -- apply RunOrLoop_throw; [exact Hop|].
           apply (IH (CallAnd (S i))); [exact E|discriminate].
        -- congruence.
      * subst r. apply RunOrLoop_done. exact Hop.
    + destruct (parseNotExpression tokens fuel i) as [l j|m j|] eqn:E; subst r.
      * eapply RunAnd_loop; [apply (IH (CallNot i)); [exact E|discriminate]|].
        apply (IH (CallAndLoop l j)); [reflexivity|exact Hr].
      * apply RunAnd_throw. apply (IH (CallNot i)); [exact E|discriminate].
      * congruence.
    + destruct (isOperator (currentToken tokens i) "AND") eqn:Hop.
      * destruct (parseNotExpression tokens fuel (S i)) as [rh j|m j|] eqn:E; subst r.
        -- eapply RunAndLoop_more; [exact Hop| |].
           ++ apply (IH (CallNot (S i))); [exact E|discriminate].
           ++ apply (IH (CallAndLoop (AndExpression l rh) j)); [reflexivity|exact Hr].
        -- apply RunAndLoop_throw; [exact Hop|].
           apply (IH (CallNot (S i))); [exact E|discriminate].
        -- congruence.
      * subst r. apply RunAndLoop_done. exact Hop.
    + destruct (isOperator (currentToken tokens i) "NOT") eqn:Hop.
      * destruct (parseNotExpression tokens fuel (S i)) as [e j|m j|] eqn:E; subst r.
        -- apply RunNot_not; [exact Hop|].
           apply (IH (CallNot (S i))); [exact E|discriminate].
        -- apply RunNot_throw; [exact Hop|].
           apply (IH (CallNot (S i))); [exact E|discriminate].
        -- congruence.
      * apply RunNot_primary; [exact Hop|].
        apply (IH (CallPrimary i)); [exact Hex|exact Hr].
    + destruct (tokenIs (currentToken tokens i) "(") eqn:Hopen.
      * destruct (parseOrExpression tokens fuel (S i)) as [e j|m j|] eqn:E.
        -- destruct (tokenIs (currentToken tokens j) ")") eqn:Hclose;
             cbn [negb] in Hex; subst r.
           ++ eapply RunPrimary_group; [exact Hopen| |exact Hclose].
              apply (IH (CallOr (S i))); [exact E|discriminate].
           ++ eapply RunPrimary_missing; [exact Hopen| |exact Hclose].
              apply (IH (CallOr (S i))); [exact E|discriminate].
        -- subst r. apply RunPrimary_inner; [exact Hopen|].
           apply (IH (CallOr (S i))); [exact E|discriminate].
        -- congruence.
      * destruct (tokenIs (currentToken tokens i) ")") eqn:Hclose.
        -- subst r. apply RunPrimary_close; assumption.
        -- destruct (currentToken tokens i) as [t|] eqn:Ht.
           ++ destruct (truthy t) eqn:Htr; cbn [negb] in Hex.
              ** destruct (isOperator (Some t) "AND" || isOperator (Some t) "OR") eqn:Hop;
                   subst r.
                 --- eapply RunPrimary_operator; rewrite ?Ht; eauto.
                 --- eapply RunPrimary_term; rewrite ?Ht; eauto.
              ** subst r. eapply RunPrimary_empty; rewrite ?Ht; eauto.
           ++ subst r. apply RunPrimary_end. exact Ht.
Qed.

Ltac unfold_production_goal :=
  first [ rewrite parseOrExpression_S
        | rewrite parseOrLoop_S
        | rewrite parseAndExpression_S
        | rewrite parseAndLoop_S
        | rewrite parseNotExpression_S
        | rewrite parsePrimaryExpression_S ].

Ltac fuel_witness :=
  match goal with
  | H1 : forall f, ?a <= f -> _, H2 : forall f, ?b <= f -> _ |- _ => exists (S (a + b))
  | H1 : forall f, ?a <= f -> _ |- _ => exists (S a)
  | _ => exists 1
  end.

Ltac use_runs f :=
  repeat match goal with
  | H : forall fuel', _ <= fuel' -> exec _ fuel' _ = _ |- _ =>
      let E := fresh "E" in
      assert (E := H f ltac:(lia)); cbn [exec] in E; rewrite E; clear H
  end.

Ltac use_tests :=
  repeat match goal with
  | H : orb _ _ = _ |- _ => rewrite H; clear H
  | H : isOperator _ _ = _ |- _ => rewrite H; clear H
  | H : tokenIs _ _ = _ |- _ => rewrite H; clear H
  end;
  repeat match goal with
  | H : currentToken _ _ = _ |- _ => rewrite H; clear H
  | H : truthy _ = _ |- _ => rewrite H; clear H
  end.

(** A run is the outcome of the production at every large enough budget. *)
Lemma Run_exec c r :
  Run tokens c r ->
  exists fuel, forall fuel', fuel <= fuel' -> exec tokens fuel' c = r.
Proof.
  induction 1;
    repeat match goal with H : exists _, _ |- _ => destruct H end;
    fuel_witness; intros [|f] Hle; try lia;
    cbn [exec]; unfold_production_goal; use_tests; use_runs f; use_tests;
    reflexivity.
Qed.

Lemma Run_not_OutOfFuel c r : Run tokens c r -> r <> OutOfFuel.
Proof. induction 1; congruence. Qed.

(** The budget does not change an outcome it is enough for. *)
Lemma exec_fuel_independent fuel fuel' c :
  exec tokens fuel c <> OutOfFuel ->
  exec tokens fuel' c <> OutOfFuel ->
  exec tokens fuel c = exec tokens fuel' c.
Proof.
  intros H H'.
  destruct (Run_exec _ _ (exec_Run fuel c _ eq_refl H)) as [f1 E1].
  destruct (Run_exec _ _ (exec_Run fuel' c _ eq_refl H')) as [f2 E2].
  rewrite <- (E1 (f1 + f2)), <- (E2 (f1 + f2)) by lia.
  reflexivity.
Qed.

Lemma currentToken_Some i t :
  currentToken tokens i = Some t -> i < List.length tokens /\ nth_error tokens i = Some t.
Proof.
  unfold currentToken. destruct (Nat.ltb_spec i (List.length tokens)); [auto|discriminate].
Qed.

Lemma currentToken_None i :
  currentToken tokens i = None <-> List.length tokens <= i.
Proof.
  unfold currentToken. destruct (Nat.ltb_spec i (List.length tokens)).
  - rewrite nth_error_None. lia.
  - tauto.
Qed.

Lemma isOperator_lt i op :
  isOperator (currentToken tokens i) op = true -> i < List.length tokens.
Proof.
  destruct (currentToken tokens i) eqn:E; [|discriminate].
  intros _. apply currentToken_Some in E. tauto.
Qed.

Lemma tokenIs_lt i s :
  tokenIs (currentToken tokens i) s = true -> i < List.length tokens.
Proof.
  destruct (currentToken tokens i) eqn:E; [|discriminate].
  intros _. apply currentToken_Some in E. tauto.
Qed.

Ltac token_bounds :=
  repeat match goal with
  | H : isOperator (currentToken _ _) _ = true |- _ => apply isOperator_lt in H
  | H : tokenIs (currentToken _ _) _ = true |- _ => apply tokenIs_lt in H
  | H : currentToken _ _ = Some _ |- _ => apply currentToken_Some in H; destruct H as [H _]
  end.

Lemma Run_advances c r :
  Run tokens c r -> callIndex c <= List.length tokens -> advances tokens c r.
Proof.
  induction 1; intros Hle; unfold advances in *; cbn [callIndex isLoop] in *;
    token_bounds;
    repeat match goal with
    | IH : _ <= _ -> _ |- _ =>
        let T := type of IH in
        specialize (IH ltac:(lia)); try destruct IH as [IH ?]
    end;
    try match goal with |- match ?r with _ => _ end => destruct r end;
    repeat split; intros; try lia; try congruence; try tauto.
Qed.

Lemma exec_advances fuel c :
  exec tokens fuel c <> OutOfFuel ->
  callIndex c <= List.length tokens -> advances tokens c (exec tokens fuel c).
Proof.
  intros H Hle. apply Run_advances; [|exact Hle].
  apply (exec_Run fuel); [reflexivity|exact H].
Qed.

(** A sub-call made within its depth bound: it does not run out of budget,
    and its outcome advances the index. *)
Ltac subcall IH fuel c' :=
  let Hne := fresh "Hne" in
  let Hadv := fresh "Hadv" in
  assert (Hne : exec tokens fuel c' <> OutOfFuel)
    by (apply IH; unfold callDepth in *; cbn [callIndex callRank] in *; lia);
  assert (Hadv : advances tokens c' (exec tokens fuel c'))
    by (apply exec_advances; [exact Hne|cbn [callIndex]; lia]);
  cbn [exec] in Hne, Hadv; unfold advances in Hadv; cbn [callIndex isLoop] in Hadv.

Lemma exec_enough fuel : forall c,
  callIndex c <= List.length tokens ->
  callDepth tokens c <= fuel ->
  exec tokens fuel c <> OutOfFuel.
Proof.
  induction fuel as [|fuel IH]; intros c Hle Hfuel.
  - unfold callDepth in Hfuel. destruct c; cbn [callRank] in Hfuel; lia.
  - destruct c as [i|l i|i|l i|i|i]; cbn [exec callIndex] in *; unfold_production_goal.
    + subcall IH fuel (CallAnd i).
      destruct (parseAndExpression tokens fuel i) as [l j|m j|]; try congruence.
      apply (IH (CallOrLoop l j)); unfold callDepth in *;
        cbn [callIndex callRank] in *; destruct Hadv as [? Hlt];
        specialize (Hlt eq_refl); lia.
    + destruct (isOperator (currentToken tokens i) "OR") eqn:Hop; [|discriminate].
      apply isOperator_lt in Hop.
      subcall IH fuel (CallAnd (S i)).
      destruct (parseAndExpression tokens fuel (S i)) as [rh j|m j|]; try congruence.
      apply (IH (CallOrLoop (OrExpression l rh) j)); unfold callDepth in *;
        cbn [callIndex callRank] in *; lia.
    + subcall IH fuel (CallNot i).
      destruct (parseNotExpression tokens fuel i) as [l j|m j|]; try congruence.
      apply (IH (CallAndLoop l j)); unfold callDepth in *;
        cbn [callIndex callRank] in *; destruct Hadv as [? Hlt];
        specialize (Hlt eq_refl); lia.
    + destruct (isOperator (currentToken tokens i) "AND") eqn:Hop; [|discriminate].
      apply isOperator_lt in Hop.
      subcall IH fuel (CallNot (S i)).
      destruct (parseNotExpression tokens fuel (S i)) as [rh j|m j|]; try congruence.
      apply (IH (CallAndLoop (AndExpression l rh) j)); unfold callDepth in *;
        cbn [callIndex callRank] in *; lia.
    + destruct (isOperator (currentToken tokens i) "NOT") eqn:Hop.
      * apply isOperator_lt in Hop.
        subcall IH fuel (CallNot (S i)).
        destruct (parseNotExpression tokens fuel (S i)) as [e j|m j|]; congruence.
      * apply (IH (CallPrimary i)); unfold callDepth in *;
          cbn [callIndex callRank] in *; lia.
    + destruct (tokenIs (currentToken tokens i) "(") eqn:Hopen.
      * apply tokenIs_lt in Hopen.
        subcall IH fuel (CallOr (S i)).
        destruct (parseOrExpression tokens fuel (S i)) as [e j|m j|]; try congruence.
        destruct (negb (tokenIs (currentToken tokens j) ")")); discriminate.
      * destruct (tokenIs (currentToken tokens i) ")"); [discriminate|].
        destruct (currentToken tokens i) as [t|]; [|discriminate].
        destruct (negb (truthy t)); [discriminate|].
        destruct (isOperator (Some t) "AND" || isOperator (Some t) "OR"); discriminate.
Qed.

End ProductionFacts.

(** ** Facts about the string primitives *)

Section StringFacts.

Lemma trimStart_allWhite s :
  allChars isWhiteSpace (trimStart s) = allChars isWhiteSpace s.
Proof.
  induction s as [|c s IH]; [reflexivity|].
  cbn [trimStart allChars]. destruct (isWhiteSpace c) eqn:E; [exact IH|].
  cbn [allChars]. rewrite E. reflexivity.
Qed.

Lemma trimEnd_empty s :
  trimEnd s = EmptyString <-> allChars isWhiteSpace s = true.
Proof.
  induction s as [|c s IH]; cbn [trimEnd allChars]; [tauto|].
  destruct (trimEnd s) eqn:E; destruct (isWhiteSpace c); cbn [andb];
    split; intros H; try discriminate; try reflexivity.
  - apply IH. reflexivity.
  - apply IH in H. discriminate.
Qed.

Lemma trim_empty s :
  trim s = EmptyString <-> allChars isWhiteSpace s = true.
Proof. unfold trim. rewrite trimEnd_empty, trimStart_allWhite. tauto. Qed.

Lemma truthy_false s : truthy s = false <-> s = EmptyString.
Proof. destruct s; cbn; split; congruence. Qed.

Lemma truthy_true s : truthy s = true <-> s <> EmptyString.
Proof. destruct s; cbn; split; congruence. Qed.

Lemma hasChar_trimStart c s :
  hasChar c s = false -> hasChar c (trimStart s) = false.
Proof.
  induction s as [|d s IH]; [reflexivity|].
  cbn [trimStart]. destruct (isWhiteSpace d); [|tauto].
  cbn [hasChar]. intros H. apply orb_false_iff in H. tauto.
Qed.

Lemma hasChar_trimEnd c s :
  hasChar c s = false -> hasChar c (trimEnd s) = false.
Proof.
  induction s as [|d s IH]; [reflexivity|].
  cbn [trimEnd hasChar]. intros H. apply orb_false_iff in H. destruct H as [Hd Hs].
  specialize (IH Hs).
  destruct (trimEnd s).
  - destruct (isWhiteSpace d); cbn [hasChar]; rewrite ?Hd; reflexivity.
  - cbn [hasChar] in *. rewrite Hd. exact IH.
Qed.

Lemma hasChar_trim c s : hasChar c s = false -> hasChar c (trim s) = false.
Proof. intros H. apply hasChar_trimEnd, hasChar_trimStart, H. Qed.

Lemma hasChar_append c s t :
  hasChar c (s ++ t)%string = hasChar c s || hasChar c t.
Proof.
  induction s as [|d s IH]; [reflexivity|].
  cbn [append hasChar]. rewrite IH, orb_assoc. reflexivity.
Qed.

Lemma hasChar_appendChar c s d :
  hasChar c (appendChar s d) = hasChar c s || Ascii.eqb d c.
Proof. unfold appendChar. rewrite hasChar_append. cbn. rewrite orb_false_r. reflexivity. Qed.

Lemma isWhiteSpace_toLowerChar c : isWhiteSpace (toLowerChar c) = isWhiteSpace c.
Proof. destruct c as [[] [] [] [] [] [] [] []]; reflexivity. Qed.

Lemma trimStart_toLowerCase s :
  trimStart (toLowerCase s) = toLowerCase (trimStart s).
Proof.
  induction s as [|c s IH]; [reflexivity|].
  cbn [toLowerCase mapString trimStart]. rewrite isWhiteSpace_toLowerChar.
  destruct (isWhiteSpace c); [exact IH|reflexivity].
Qed.

Lemma trimEnd_toLowerCase s :
  trimEnd (toLowerCase s) = toLowerCase (trimEnd s).
Proof.
  induction s as [|c s IH]; [reflexivity|].
  cbn [toLowerCase mapString trimEnd]. fold (toLowerCase s).
  rewrite IH, isWhiteSpace_toLowerChar.
  destruct (trimEnd s); cbn [toLowerCase mapString]; [|reflexivity].
  destruct (isWhiteSpace c); reflexivity.
Qed.

(** Lower-casing and trimming commute. *)
Lemma trim_toLowerCase s : trim (toLowerCase s) = toLowerCase (trim s).
Proof. unfold trim. rewrite trimStart_toLowerCase, trimEnd_toLowerCase. reflexivity. Qed.

End StringFacts.

(** ** Facts about the tokenizer *)

Section TokenizerFacts.

Lemma flushToken_spec st :
  flushToken st =
  mkTokenizerState
    (tkTokens st ++ (if truthy (trim (tkCurrentToken st)) then [trim (tkCurrentToken st)] else []))
    (if truthy (trim (tkCurrentToken st)) then EmptyString else tkCurrentToken st)
    (tkInQuotes st).
Proof.
  unfold flushToken. destruct (truthy (trim (tkCurrentToken st))); [reflexivity|].
  rewrite app_nil_r. destruct st; reflexivity.
Qed.

Lemma flushToken_invariant st : tokenizerInvariant st -> tokenizerInvariant (flushToken st).
Proof.
  intros [Htok Hcur]. unfold flushToken.
  destruct (truthy (trim (tkCurrentToken st))) eqn:E; [|split; assumption].
  split; cbn; [|reflexivity].
  apply Forall_app. split; [exact Htok|].
  constructor; [|constructor]. split; [apply hasChar_trim, Hcur|exact E].
Qed.

Lemma tokenizeChar_quote st :
  tokenizeChar st dquote =
  mkTokenizerState (tkTokens st) (tkCurrentToken st) (negb (tkInQuotes st)).
Proof. reflexivity. Qed.

Lemma tokenizeChar_inQuotes st c :
  tkInQuotes st = true -> c <> dquote ->
  tokenizeChar st c =
  mkTokenizerState (tkTokens st) (appendChar (tkCurrentToken st) c) true.
Proof.
  intros Hq Hc. unfold tokenizeChar.
  apply Ascii.eqb_neq in Hc. rewrite Hc, Hq. reflexivity.
Qed.

Lemma tokenizeChar_paren st c :
  tkInQuotes st = false -> c = lparen \/ c = rparen ->
  tokenizeChar st c = pushToken (String c EmptyString) (flushToken st).
Proof. intros Hq [-> | ->]; unfold tokenizeChar; cbn; rewrite Hq; reflexivity. Qed.

Lemma tokenizeChar_blank st c :
  tkInQuotes st = false -> c = space \/ c = tab ->
  tokenizeChar st c = flushToken st.
Proof. intros Hq [-> | ->]; unfold tokenizeChar; cbn; rewrite Hq; reflexivity. Qed.

Lemma tokenizeChar_other st c :
  tkInQuotes st = false ->
  c <> dquote -> c <> lparen -> c <> rparen -> c <> space -> c <> tab ->
  tokenizeChar st c =
  mkTokenizerState (tkTokens st) (appendChar (tkCurrentToken st) c) false.
Proof.
  intros Hq H1 H2 H3 H4 H5. unfold tokenizeChar.
  apply Ascii.eqb_neq in H1, H2, H3, H4, H5.
  rewrite H1, H2, H3, H4, H5, Hq. reflexivity.
Qed.

Lemma tokenizeChar_invariant st c :
  tokenizerInvariant st -> tokenizerInvariant (tokenizeChar st c).
Proof.
  intros Hinv. unfold tokenizeChar.
  destruct (Ascii.eqb_spec c dquote) as [->|Hc]; [exact Hinv|].
  assert (Happ : tokenizerInvariant
            (mkTokenizerState (tkTokens st) (appendChar (tkCurrentToken st) c) (tkInQuotes st))).
  { destruct Hinv as [Htok Hcur]. split; cbn; [exact Htok|].
    rewrite hasChar_appendChar, Hcur. apply Ascii.eqb_neq, Hc. }
  destruct (tkInQuotes st); [exact Happ|].
  destruct (Ascii.eqb c lparen || Ascii.eqb c rparen) eqn:Hp.
  - destruct (flushToken_invariant st Hinv) as [Htok Hcur].
    split; cbn; [|exact Hcur].
    apply Forall_app. split; [exact Htok|].
    constructor; [|constructor]. split; [|reflexivity].
    cbn. apply Ascii.eqb_neq in Hc. rewrite Hc. reflexivity.
  - destruct (Ascii.eqb c space || Ascii.eqb c tab);
      [apply flushToken_invariant, Hinv|exact Happ].
Qed.

Lemma tokenizeLoop_invariant s : forall st,
  tokenizerInvariant st -> tokenizerInvariant (tokenizeLoop st s).
Proof.
  induction s as [|c s IH]; intros st Hinv; [exact Hinv|].
  cbn [tokenizeLoop]. apply IH, tokenizeChar_invariant, Hinv.
Qed.

Lemma tokenize_wellFormed s : Forall wellFormedToken (tokenize s).
Proof.
  unfold tokenize.
  apply flushToken_invariant, tokenizeLoop_invariant.
  split; [constructor|reflexivity].
Qed.

Lemma append_assoc_string (a b c : string) : ((a ++ b) ++ c = a ++ (b ++ c))%string.
Proof. induction a as [|x a IH]; cbn; [reflexivity|rewrite IH; reflexivity]. Qed.

(** Once inside a quote that is never closed, the rest of the input goes
    into the buffer as it is. *)
Lemma tokenizeLoop_inQuotes s : forall st,
  tkInQuotes st = true -> hasChar dquote s = false ->
  tokenizeLoop st s =
  mkTokenizerState (tkTokens st) (tkCurrentToken st ++ s)%string true.
Proof.
  induction s as [|c s IH]; intros st Hq Hs.
  - cbn [tokenizeLoop]. destruct st as [ts cur q]; cbn in *.
    subst q. f_equal. clear. induction cur; cbn; congruence.
  - cbn [hasChar] in Hs. apply orb_false_iff in Hs. destruct Hs as [Hc Hs].
    cbn [tokenizeLoop]. rewrite tokenizeChar_inQuotes; [|exact Hq|apply Ascii.eqb_neq, Hc].
    rewrite IH; [|reflexivity|exact Hs]. cbn.
    unfold appendChar. rewrite append_assoc_string. reflexivity.
Qed.

Lemma tokenize_unterminated s :
  hasChar dquote s = false ->
  tokenize (String dquote s) = if truthy (trim s) then [trim s] else [].
Proof.
  intros Hs. unfold tokenize. cbn [tokenizeLoop]. rewrite tokenizeChar_quote.
  rewrite tokenizeLoop_inQuotes; [|reflexivity|exact Hs].
  rewrite flushToken_spec. reflexivity.
Qed.

End TokenizerFacts.

(** ** The tokenizer: quotes, parentheses and white space *)

(** C5.  The tokenizer drops every quote character: no token holds one, and
    a quote only toggles [inQuotes].  While [inQuotes] is set every other
    character, white space and parentheses included, goes into the current
    token as it is, so a quoted multi-word string is one token.  Outside
    quotes a parenthesis first flushes the pending buffer (trimmed, only
    when not empty) and is then pushed as a token of its own.  A quote that
    is never closed raises nothing: the rest of the input is taken as
    quoted. *)
Theorem tokenize_quotes_and_parentheses :
  (forall s t, In t (tokenize s) -> hasChar dquote t = false) /\
  (forall st,
     tokenizeChar st dquote =
     mkTokenizerState (tkTokens st) (tkCurrentToken st) (negb (tkInQuotes st))) /\
  (forall st c, tkInQuotes st = true -> c <> dquote ->
     tokenizeChar st c =
     mkTokenizerState (tkTokens st) (appendChar (tkCurrentToken st) c) true) /\
  tokenize (quoted "Machine Learning") = ["Machine Learning"] /\
  tokenize (quoted "a (b) c" ++ " AND x")%string = ["a (b) c"; "AND"; "x"] /\
  (forall st c, tkInQuotes st = false -> c = lparen \/ c = rparen ->
     tokenizeChar st c =
     mkTokenizerState
       (tkTokens st
        ++ (if truthy (trim (tkCurrentToken st)) then [trim (tkCurrentToken st)] else [])
        ++ [String c EmptyString])
       (if truthy (trim (tkCurrentToken st)) then EmptyString else tkCurrentToken st)
       false) /\
  (forall st s, tkInQuotes st = true -> hasChar dquote s = false ->
     tokenizeLoop st s =
     mkTokenizerState (tkTokens st) (tkCurrentToken st ++ s)%string true) /\
  (forall s, hasChar dquote s = false ->
     tokenize (String dquote s) = if truthy (trim s) then [trim s] else []).
Proof.
  split; [|split; [|split; [|split; [|split; [|split; [|split]]]]]].
  - intros s t Hin.
    pose proof (tokenize_wellFormed s) as Hall.
    rewrite Forall_forall in Hall. apply (Hall t Hin).
  - exact tokenizeChar_quote.
  - exact tokenizeChar_inQuotes.
  - reflexivity.
  - reflexivity.
  - intros st c Hq Hc. rewrite (tokenizeChar_paren st c Hq Hc), flushToken_spec.
    unfold pushToken. cbn. rewrite <- app_assoc, Hq. reflexivity.
  - intros st s. apply tokenizeLoop_inQuotes.
  - exact tokenize_unterminated.
Qed.

Lemma tokenize_quotes_and_parentheses_witness :
  hasChar dquote "Machine Learning" = false /\
  tokenizeChar (mkTokenizerState ["x"] "Machine" true) space
  = mkTokenizerState ["x"] "Machine " true /\
  tokenizeChar (mkTokenizerState ["x"] " y " false) lparen
  = mkTokenizerState ["x"; "y"; "("] EmptyString false /\
  tokenize (String dquote "Machine (Learning AND x")
  = ["Machine (Learning AND x"].
Proof.
  destruct tokenize_quotes_and_parentheses
    as (Hno & _ & Hin & _ & _ & Hparen & _ & Hopen).
  split; [|split; [|split]].
  - apply (Hno (quoted "Machine Learning")). cbn. left. reflexivity.
  - apply (Hin (mkTokenizerState ["x"] "Machine" true) space); [reflexivity|discriminate].
  - apply (Hparen (mkTokenizerState ["x"] " y " false) lparen); [reflexivity|left; reflexivity].
  - apply (Hopen "Machine (Learning AND x"). reflexivity.
Defined.

(** C10.  Outside quotes only the space and the tab flush the buffer among
    the white-space characters: any other one, such as a newline, is
    appended to the current token like an ordinary character.  Words
    separated by a newline only are therefore one token. *)
Theorem tokenize_newline_is_ordinary :
  (forall st c, tkInQuotes st = false -> c = space \/ c = tab ->
     tokenizeChar st c = flushToken st) /\
  (forall st c, tkInQuotes st = false ->
     isWhiteSpace c = true -> c <> space -> c <> tab ->
     tokenizeChar st c =
     mkTokenizerState (tkTokens st) (appendChar (tkCurrentToken st) c) false) /\
  isWhiteSpace newline = true /\
  tokenize ("Python" ++ String newline "Django")%string
  = [("Python" ++ String newline "Django")%string] /\
  tokenize "Python Django" = ["Python"; "Django"].
Proof.
  split; [|split; [|split; [|split]]]; try reflexivity.
  - exact tokenizeChar_blank.
  - intros st c Hq Hws Hsp Htab.
    apply tokenizeChar_other; try assumption;
      intros ->; discriminate Hws.
Qed.

Lemma tokenize_newline_is_ordinary_witness :
  tokenizeChar (mkTokenizerState [] "Python" false) newline
  = mkTokenizerState [] ("Python" ++ String newline EmptyString)%string false.
Proof.
  destruct tokenize_newline_is_ordinary as (_ & Hws & _).
  apply (Hws (mkTokenizerState [] "Python" false) newline);
    [reflexivity|reflexivity|discriminate|discriminate].
Defined.

(** ** The evaluator *)

(** C3.  A term is true on a tag list exactly when some tag that is not
    missing equals it after trimming and lower-casing; a proper prefix does
    not match, missing tags are skipped, and no term holds on the empty
    list.  Trimming and lower-casing are those of the language: a tag with
    a no-break space (code unit 160) before it matches, and so does the
    tag e-acute (233) for the term E-acute (201). *)
Theorem evaluate_term_exact_match :
  (forall text tags,
     evaluate (TermExpression text) tags = true <->
     exists tag, In (Some tag) tags /\
                 toLowerCase (trim tag) = toLowerCase (trim text)) /\
  evaluate (TermExpression "Py") [Some "Python"] = false /\
  evaluate (TermExpression "Post") [Some "PostgreSQL"] = false /\
  evaluate (TermExpression "C") [Some "React"; Some "Node"] = false /\
  evaluate (TermExpression " python ") [Some "Python"] = true /\
  evaluate (TermExpression "x") [Some (String "160" "x")] = true /\
  evaluate (TermExpression (String "201" EmptyString)) [Some (String "233" EmptyString)]
  = true /\
  evaluate (TermExpression (String "215" EmptyString)) [Some (String "247" EmptyString)]
  = false /\
  (forall text tags,
     evaluate (TermExpression text) (None :: tags) = evaluate (TermExpression text) tags) /\
  (forall text, evaluate (TermExpression text) [] = false).
Proof.
  split; [|repeat split; reflexivity].
  intros text tags. cbn [evaluate]. rewrite existsb_exists. split.
  - intros [[tag|] [Hin Hm]]; [|discriminate].
    exists tag. split; [exact Hin|].
    cbn in Hm. apply String.eqb_eq in Hm.
    rewrite <- !trim_toLowerCase. exact Hm.
  - intros [tag [Hin Hm]]. exists (Some tag). split; [exact Hin|].
    cbn. apply String.eqb_eq. rewrite !trim_toLowerCase. exact Hm.
Qed.

(** ** Empty input *)

(** C6.  On an empty or all-white-space string [parse] returns no
    expression, [isValid = true] and no message, whatever the tokenizer is
    and whatever room the call stack has: the tokenizer is not called, and
    the parser object is left as it was.  White space is what [trim]
    removes, the no-break space included: these are the strings on which
    the test [expression.trim() === ''] of the code holds. *)
Theorem parse_blank this expression :
  allChars isWhiteSpace expression = true ->
  (forall tokenizer fuel,
     parseUsing tokenizer fuel this expression
     = Some (mkParseResult None true None, this)) /\
  parse this expression = Some (mkParseResult None true None, this) /\
  (forall stack,
     parseOnStack stack this expression = Some (mkParseResult None true None, this)) /\
  trim expression = EmptyString.
Proof.
  intros Hws.
  assert (H : forall tokenizer fuel,
             parseUsing tokenizer fuel this expression
             = Some (mkParseResult None true None, this)).
  { intros tokenizer fuel. unfold parseUsing.
    apply trim_empty in Hws. rewrite Hws. cbn. rewrite orb_true_r. reflexivity. }
  split; [exact H|]. split; [apply H|]. split; [|apply trim_empty, Hws].
  intros stack. unfold parseOnStack.
  apply trim_empty in Hws. rewrite Hws. cbn. rewrite orb_true_r. reflexivity.
Qed.

Lemma parse_blank_witness :
  parse (mkParser ["x"] 1) "   " = Some (mkParseResult None true None, mkParser ["x"] 1) /\
  parse newParser EmptyString = Some (mkParseResult None true None, newParser) /\
  parse newParser (String "160" (String tab (String newline " ")))
  = Some (mkParseResult None true None, newParser).
Proof.
  split; [|split].
  - apply (parse_blank (mkParser ["x"] 1) "   "). reflexivity.
  - apply (parse_blank newParser EmptyString). reflexivity.
  - apply (parse_blank newParser (String "160" (String tab (String newline " ")))).
    reflexivity.
Defined.

(** ** Termination and the error boundary *)

Lemma callDepth_CallOr tokens : callDepth tokens (CallOr 0) = enoughFuel tokens.
Proof. unfold callDepth, enoughFuel. cbn [callIndex callRank]. lia. Qed.

Lemma parseOrExpression_enough tokens fuel :
  enoughFuel tokens <= fuel -> parseOrExpression tokens fuel 0 <> OutOfFuel.
Proof.
  intros Hfuel. apply (exec_enough tokens fuel (CallOr 0)); cbn [callIndex]; [lia|].
  rewrite callDepth_CallOr. exact Hfuel.
Qed.

Lemma tryParse_enough tokens fuel :
  enoughFuel tokens <= fuel -> tryParse tokens fuel = tryParse tokens (enoughFuel tokens).
Proof.
  intros Hfuel. unfold tryParse.
  assert (E : exec tokens fuel (CallOr 0) = exec tokens (enoughFuel tokens) (CallOr 0))
    by (apply exec_fuel_independent; cbn [exec]; apply parseOrExpression_enough; lia).
  cbn [exec] in E. rewrite E. reflexivity.
Qed.

Lemma tryParse_not_OutOfFuel tokens :
  tryParse tokens (enoughFuel tokens) <> OutOfFuel.
Proof.
  unfold tryParse.
  pose proof (parseOrExpression_enough tokens (enoughFuel tokens) (le_n _)) as H.
  destruct (parseOrExpression tokens (enoughFuel tokens) 0) as [e j|m j|];
    [destruct (j <? List.length tokens); discriminate|discriminate|congruence].
Qed.

(** C7.  [parse] terminates on every input.  A production that returns has
    consumed at least one token, the index never leaves the token range,
    and every call stays within a call depth of four levels per remaining
    token; so the budget [enoughFuel] never runs out, a larger budget
    changes nothing, and [parse] returns a result on every string. *)
Theorem parse_terminates :
  (forall tokens fuel c e j,
     callIndex c <= List.length tokens ->
     exec tokens fuel c = Returns e j ->
     callIndex c <= j <= List.length tokens /\ (isLoop c = false -> callIndex c < j)) /\
  (forall tokens fuel c,
     callIndex c <= List.length tokens ->
     callDepth tokens c <= fuel ->
     exec tokens fuel c <> OutOfFuel /\
     exec tokens fuel c = exec tokens (callDepth tokens c) c) /\
  (forall this expression, exists r this', parse this expression = Some (r, this')) /\
  (forall this expression fuel,
     (forall tokens, enoughFuel tokens <= fuel tokens) ->
     parseUsing tokenize fuel this expression = parse this expression).
Proof.
  split; [|split; [|split]].
  - intros tokens fuel c e j Hle Hex.
    assert (Hne : exec tokens fuel c <> OutOfFuel) by (rewrite Hex; discriminate).
    pose proof (exec_advances tokens fuel c Hne Hle) as Hadv.
    rewrite Hex in Hadv. exact Hadv.
  - intros tokens fuel c Hle Hfuel.
    pose proof (exec_enough tokens fuel c Hle Hfuel) as H1.
    pose proof (exec_enough tokens _ c Hle (le_n _)) as H2.
    split; [exact H1|apply exec_fuel_independent; assumption].
  - intros this expression. unfold parse, parseUsing.
    destruct (negb (truthy expression) || (trim expression =? EmptyString)%string);
      [eauto|].
    pose proof (tryParse_not_OutOfFuel (tokenize expression)) as Hne.
    destruct (tryParse (tokenize expression) (enoughFuel (tokenize expression)));
      [eauto|eauto|congruence].
  - intros this expression fuel Hfuel. unfold parse, parseUsing.
    rewrite (tryParse_enough _ _ (Hfuel (tokenize expression))). reflexivity.
Qed.

Lemma parse_terminates_witness :
  (0 <= 3 <= 3 /\ (isLoop (CallOr 0) = false -> 0 < 3)) /\
  parseNotExpression ["NOT"; "("; "x"] 100 0 <> OutOfFuel /\
  parseUsing tokenize (fun tokens => 2 * enoughFuel tokens) newParser "a AND (b OR c)"
  = parse newParser "a AND (b OR c)".
Proof.
  destruct parse_terminates as (Hadv & Hfuel & _ & Hparse).
  split; [|split].
  - apply (Hadv ["a"; "OR"; "b"] 20 (CallOr 0)
             (OrExpression (TermExpression "a") (TermExpression "b")) 3).
    + cbn. lia.
    + reflexivity.
  - apply (Hfuel ["NOT"; "("; "x"] 100 (CallNot 0)).
    + cbn. lia.
    + cbn. lia.
  - apply Hparse. intros tokens. lia.
Defined.

(** The outcome of [parse] in terms of the [try] block. *)
Lemma parse_unfold this expression :
  parse this expression =
  if allChars isWhiteSpace expression then Some (mkParseResult None true None, this)
  else
    match tryParse (tokenize expression) (enoughFuel (tokenize expression)) with
    | Returns result idx =>
        Some (mkParseResult (Some result) true None, mkParser (tokenize expression) idx)
    | Throws message idx =>
        Some (mkParseResult (Some (TermExpression expression)) false (Some message),
              mkParser (tokenize expression) idx)
    | OutOfFuel => None
    end.
Proof.
  unfold parse, parseUsing.
  destruct (allChars isWhiteSpace expression) eqn:Hws.
  - apply trim_empty in Hws. rewrite Hws. cbn. rewrite orb_true_r. reflexivity.
  - assert (Ht : (trim expression =? EmptyString)%string = false).
    { apply String.eqb_neq. intros H. apply trim_empty in H. congruence. }
    assert (He : truthy expression = true) by (destruct expression; [discriminate|reflexivity]).
    rewrite Ht, He. reflexivity.
Qed.

Lemma evaluate_term_self expression tags tag :
  In (Some tag) tags ->
  toLowerCase (trim tag) = toLowerCase (trim expression) ->
  evaluate (TermExpression expression) tags = true.
Proof.
  intros Hin Heq. cbn [evaluate]. apply existsb_exists.
  exists (Some tag). split; [exact Hin|].
  cbn. apply String.eqb_eq. rewrite !trim_toLowerCase. exact Heq.
Qed.

(** C1.  [parse] returns a result on every string.  When the [try] block
    throws, the result has [isValid = false], the message of the error that
    was thrown, and the term wrapping the whole raw string, which is true on
    every tag list holding a tag equal to the raw string after
    normalization; otherwise the result is valid and carries no message. *)
Theorem parse_never_raises this raw :
  exists r this',
    parse this raw = Some (r, this') /\
    ((isValid r = true /\ errorMessage r = None) \/
     (isValid r = false /\
      allChars isWhiteSpace raw = false /\
      exists message,
        tryParse (tokenize raw) (enoughFuel (tokenize raw))
        = Throws message (currentIndex this') /\
        errorMessage r = Some message /\
        expression r = Some (TermExpression raw) /\
        evaluate (TermExpression raw) [Some raw] = true /\
        forall tags tag,
          In (Some tag) tags ->
          toLowerCase (trim tag) = toLowerCase (trim raw) ->
          evaluate (TermExpression raw) tags = true)) /\
    (allChars isWhiteSpace raw = false ->
     forall message idx,
       tryParse (tokenize raw) (enoughFuel (tokenize raw))
       = Throws message idx ->
       r = mkParseResult (Some (TermExpression raw)) false (Some message)).
Proof.
  rewrite parse_unfold.
  destruct (allChars isWhiteSpace raw) eqn:Hws.
  - eexists; eexists. split; [reflexivity|]. split; [left; split; reflexivity|].
    discriminate.
  - pose proof (tryParse_not_OutOfFuel (tokenize raw)) as Hne.
    destruct (tryParse (tokenize raw) (enoughFuel (tokenize raw)))
      as [e j|m j|]; [| |congruence].
    + eexists; eexists. split; [reflexivity|]. split; [left; split; reflexivity|].
      intros _ message idx H. discriminate H.
    + eexists; eexists. split; [reflexivity|]. split.
      * right. split; [reflexivity|]. split; [reflexivity|].
        exists m. cbn. repeat split.
        -- apply (evaluate_term_self raw [Some raw] raw);
             [left; reflexivity|reflexivity].
        -- intros tags tag. apply evaluate_term_self.
      * intros _ message idx H. injection H as -> _. reflexivity.
Qed.

Lemma parse_never_raises_witness :
  exists r this',
    parse newParser "Python AND" = Some (r, this') /\
    r = mkParseResult (Some (TermExpression "Python AND")) false
          (Some "Unexpected end of expression").
Proof.
  destruct (parse_never_raises newParser "Python AND") as (r & this' & Hp & _ & H).
  exists r, this'. split; [exact Hp|].
  apply (H eq_refl "Unexpected end of expression" 2). reflexivity.
Defined.

(** ** Operator keywords are never terms *)

Section KeywordFacts.

Variable tokens : list string.

Lemma Run_keywordFree c r :
  Run tokens c r -> keywordFreeCall tokens c -> keywordFreeOutcome r.
Proof.
  induction 1; cbn [keywordFreeCall keywordFreeOutcome] in *; intros Hc; auto.
  - apply IHRun2. cbn [hasKeywordTerm]. rewrite Hc, IHRun1; auto.
  - apply IHRun2. cbn [hasKeywordTerm]. rewrite Hc, IHRun1; auto.
  - cbn [hasKeywordTerm]. unfold isKeyword.
    rewrite H1 in *. rewrite H3, Hc. reflexivity.
Qed.

End KeywordFacts.

Lemma parse_valid_Run this raw r this' :
  parse this raw = Some (r, this') -> isValid r = true ->
  forall e, expression r = Some e ->
  exists j, Run (tokenize raw) (CallOr 0) (Returns e j) /\ j = List.length (tokenize raw).
Proof.
  rewrite parse_unfold. intros Hp Hv e He.
  destruct (allChars isWhiteSpace raw).
  - injection Hp as <- _. discriminate He.
  - unfold tryParse in Hp.
    destruct (parseOrExpression (tokenize raw) (enoughFuel (tokenize raw)) 0)
      as [e' j|m j|] eqn:E.
    + destruct (Nat.ltb_spec j (List.length (tokenize raw))) as [Hlt|Hge].
      * injection Hp as <- _. discriminate Hv.
      * injection Hp as <- _. cbn in He. injection He as ->.
        assert (HR : Run (tokenize raw) (CallOr 0) (Returns e j))
          by (apply (exec_Run _ (enoughFuel (tokenize raw))); [exact E|discriminate]).
        exists j. split; [exact HR|].
        apply Run_advances in HR; [|cbn; lia]. cbn in HR. lia.
    + injection Hp as <- _. discriminate Hv.
    + discriminate Hp.
Qed.

(** C9.  Quoting does not escape an operator keyword: the quotes are gone
    before the keywords are recognized, so the quoted input NOT is the
    operator with nothing after it and is not valid; and no term of a valid
    parse is AND, OR or NOT in whatever letter case. *)
Theorem parse_no_keyword_terms :
  tokenize (quoted "NOT") = ["NOT"] /\
  option_map fst (parse newParser (quoted "NOT"))
  = Some (mkParseResult (Some (TermExpression (quoted "NOT"))) false
            (Some "Unexpected end of expression")) /\
  option_map fst (parse newParser (quoted "and"))
  = Some (mkParseResult (Some (TermExpression (quoted "and"))) false
            (Some "Unexpected operator: and")) /\
  (forall this raw r this' e,
     parse this raw = Some (r, this') -> isValid r = true ->
     expression r = Some e -> hasKeywordTerm e = false).
Proof.
  split; [reflexivity|]. split; [reflexivity|]. split; [reflexivity|].
  intros this raw r this' e Hp Hv He.
  destruct (parse_valid_Run this raw r this' Hp Hv e He) as (j & HR & _).
  apply (Run_keywordFree _ _ _ HR). exact I.
Qed.

Lemma parse_no_keyword_terms_witness :
  hasKeywordTerm
    (AndExpression (TermExpression "Android") (NotExpression (TermExpression "Notion")))
  = false.
Proof.
  destruct parse_no_keyword_terms as (_ & _ & _ & H).
  apply (H newParser "Android AND NOT Notion"
           (mkParseResult
              (Some (AndExpression (TermExpression "Android")
                       (NotExpression (TermExpression "Notion")))) true None)
           (mkParser ["Android"; "AND"; "NOT"; "Notion"] 4));
    reflexivity.
Defined.

(** ** Well-formed inputs *)

Section GrammarFacts.

Variable tokens : list string.

Lemma segment_app i a b :
  segment tokens i (a ++ b) ->
  segment tokens i a /\ segment tokens (i + List.length a) b.
Proof.
  intros H. split; intros k Hk.
  - rewrite H by (rewrite length_app; lia). apply nth_error_app1, Hk.
  - replace (i + List.length a + k) with (i + (List.length a + k)) by lia.
    rewrite H by (rewrite length_app; lia).
    rewrite nth_error_app2 by lia. f_equal. lia.
Qed.

Lemma segment_cons i t ts :
  segment tokens i (t :: ts) ->
  currentToken tokens i = Some t /\ segment tokens (S i) ts.
Proof.
  intros H. split.
  - specialize (H 0 ltac:(cbn; lia)). rewrite Nat.add_0_r in H. cbn in H.
    unfold currentToken.
    assert (Hlt : i < List.length tokens) by (apply nth_error_Some; congruence).
    apply Nat.ltb_lt in Hlt. rewrite Hlt. exact H.
  - intros k Hk. specialize (H (S k) ltac:(cbn; lia)).
    replace (S i + k) with (i + S k) by lia. exact H.
Qed.

Lemma segment_all : segment tokens 0 tokens.
Proof. intros k _. reflexivity. Qed.

Lemma isOperator_OR_not_AND t :
  isOperator t "OR" = true -> isOperator t "AND" = false.
Proof.
  destruct t as [t|]; [|reflexivity]. cbn. intros H.
  apply String.eqb_eq in H. rewrite H. reflexivity.
Qed.

Lemma Derives_nonempty sym ts e :
  Derives sym ts e ->
  match sym with
  | SymOrTail _ | SymAndTail _ => True
  | _ => ts <> []
  end.
Proof.
  induction 1; try exact I; try discriminate.
  - destruct ts1; [congruence|discriminate].
  - destruct ts1; [congruence|discriminate].
  - exact IHDerives.
Qed.

(** The first token after an operand decides whether the loop goes on. *)
Lemma DerivesOrTail_next l ts e i :
  Derives (SymOrTail l) ts e -> segment tokens i ts ->
  follow SymOr (currentToken tokens (i + List.length ts)) ->
  isOperator (currentToken tokens i) "AND" = false.
Proof.
  intros HD Hseg Hf. inversion HD; subst.
  - cbn [List.length] in Hf. rewrite Nat.add_0_r in Hf. apply Hf.
  - apply segment_cons in Hseg. destruct Hseg as [Ht _]. rewrite Ht.
    apply isOperator_OR_not_AND. assumption.
Qed.

Lemma DerivesPrimary_first ts e i :
  Derives SymPrimary ts e -> segment tokens i ts ->
  isOperator (currentToken tokens i) "NOT" = false.
Proof.
  intros HD Hseg. inversion HD; subst;
    apply segment_cons in Hseg; destruct Hseg as [Ht _]; rewrite Ht.
  - reflexivity.
  - unfold isTermToken, isKeyword in H.
    rewrite !andb_true_iff, !negb_true_iff, !orb_false_iff in H. tauto.
Qed.

(** The parser accepts every sentence and builds its tree. *)
Lemma Derives_Run sym ts e :
  Derives sym ts e ->
  forall i, segment tokens i ts ->
  follow sym (currentToken tokens (i + List.length ts)) ->
  Run tokens (callOf sym i) (Returns e (i + List.length ts)).
Proof.
  induction 1; intros i Hseg Hf; cbn [callOf] in *.
  - apply segment_app in Hseg. destruct Hseg as [Hs1 Hs2].
    rewrite length_app, Nat.add_assoc in *.
    eapply RunOr_loop.
    + apply IHDerives1; [exact Hs1|]. cbn [follow].
      eapply DerivesOrTail_next; [exact H0|exact Hs2|exact Hf].
    + apply IHDerives2; [exact Hs2|exact Hf].
  - cbn [List.length] in *. rewrite Nat.add_0_r in *.
    apply RunOrLoop_done. apply Hf.
  - apply segment_cons in Hseg. destruct Hseg as [Ht Hs].
    apply segment_app in Hs. destruct Hs as [Hs1 Hs2].
    cbn [List.length] in *. rewrite length_app in *.
    replace (i + S (List.length ts1 + List.length ts2))
      with (S i + List.length ts1 + List.length ts2) in * by lia.
    eapply RunOrLoop_more.
    + rewrite Ht. exact H.
    + apply IHDerives1; [exact Hs1|]. cbn [follow].
      eapply DerivesOrTail_next; [exact H1|exact Hs2|exact Hf].
    + apply IHDerives2; [exact Hs2|exact Hf].
  - apply segment_app in Hseg. destruct Hseg as [Hs1 Hs2].
    rewrite length_app, Nat.add_assoc in *.
    eapply RunAnd_loop.
    + apply IHDerives1; [exact Hs1|exact I].
    + apply IHDerives2; [exact Hs2|exact Hf].
  - cbn [List.length] in *. rewrite Nat.add_0_r in *.
    apply RunAndLoop_done. apply Hf.
  - apply segment_cons in Hseg. destruct Hseg as [Ht Hs].
    apply segment_app in Hs. destruct Hs as [Hs1 Hs2].
    cbn [List.length] in *. rewrite length_app in *.
    replace (i + S (List.length ts1 + List.length ts2))
      with (S i + List.length ts1 + List.length ts2) in * by lia.
    eapply RunAndLoop_more.
    + rewrite Ht. exact H.
    + apply IHDerives1; [exact Hs1|exact I].
    + apply IHDerives2; [exact Hs2|exact Hf].
  - apply segment_cons in Hseg. destruct Hseg as [Ht Hs].
    cbn [List.length]. replace (i + S (List.length ts)) with (S i + List.length ts) by lia.
    apply RunNot_not; [rewrite Ht; exact H|].
    apply IHDerives; [exact Hs|exact I].
  - apply RunNot_primary; [eapply DerivesPrimary_first; eassumption|].
    apply IHDerives; [exact Hseg|exact I].
  - apply segment_cons in Hseg. destruct Hseg as [Ht Hs].
    apply segment_app in Hs. destruct Hs as [Hs1 Hs2].
    apply segment_cons in Hs2. destruct Hs2 as [Hclose _].
    cbn [List.length]. rewrite length_app. cbn [List.length].
    replace (i + S (List.length ts + 1)) with (S (S i + List.length ts)) by lia.
    apply RunPrimary_group.
    + rewrite Ht. reflexivity.
    + apply IHDerives; [exact Hs1|]. cbn [follow]. rewrite Hclose. split; reflexivity.
    + rewrite Hclose. reflexivity.
  - apply segment_cons in Hseg. destruct Hseg as [Ht _].
    cbn [List.length]. replace (i + 1) with (S i) by lia.
    unfold isTermToken, isKeyword in H.
    rewrite !andb_true_iff, !negb_true_iff, !orb_false_iff in H.
    destruct H as [[[Htr Hopen] Hclose] [[Hand Hor] Hnot]].
    apply RunPrimary_term; rewrite ?Ht; cbn [tokenIs];
      try assumption; try reflexivity.
    rewrite Hand, Hor. reflexivity.
Qed.

End GrammarFacts.

Lemma Run_exec_enough tokens fuel c r :
  Run tokens c r ->
  callIndex c <= List.length tokens -> callDepth tokens c <= fuel ->
  exec tokens fuel c = r.
Proof.
  intros HR Hle Hfuel.
  pose proof (exec_enough tokens fuel c Hle Hfuel) as Hne.
  destruct (Run_exec tokens c r HR) as [f Hf].
  pose proof (Run_not_OutOfFuel tokens c r HR) as Hr.
  rewrite <- (Hf f (le_n _)). apply exec_fuel_independent; [exact Hne|].
  rewrite (Hf f (le_n _)). exact Hr.
Qed.

Lemma allChars_appendChar p s c :
  allChars p (appendChar s c) = allChars p s && p c.
Proof.
  unfold appendChar. induction s as [|d s IH]; cbn [append allChars].
  - rewrite andb_true_r. reflexivity.
  - rewrite IH, andb_assoc. reflexivity.
Qed.

Lemma flushToken_blank st :
  allChars isWhiteSpace (tkCurrentToken st) = true -> flushToken st = st.
Proof.
  intros H. unfold flushToken. apply trim_empty in H. rewrite H. reflexivity.
Qed.

Lemma tokenizeLoop_blank s : forall buffer,
  allChars isWhiteSpace s = true -> allChars isWhiteSpace buffer = true ->
  exists buffer',
    tokenizeLoop (mkTokenizerState [] buffer false) s = mkTokenizerState [] buffer' false /\
    allChars isWhiteSpace buffer' = true.
Proof.
  induction s as [|c s IH]; intros buffer Hs Hb.
  - exists buffer. split; [reflexivity|exact Hb].
  - cbn [allChars] in Hs. apply andb_true_iff in Hs. destruct Hs as [Hc Hs].
    cbn [tokenizeLoop].
    destruct (Ascii.eqb_spec c space) as [->|Hsp];
      [|destruct (Ascii.eqb_spec c tab) as [->|Htab]].
    + rewrite tokenizeChar_blank by (auto; reflexivity).
      rewrite flushToken_blank by exact Hb. apply IH; assumption.
    + rewrite tokenizeChar_blank by (auto; reflexivity).
      rewrite flushToken_blank by exact Hb. apply IH; assumption.
    + rewrite tokenizeChar_other;
        try reflexivity; try assumption; try (intros ->; discriminate Hc).
      apply IH; [exact Hs|]. cbn [tkCurrentToken].
      rewrite allChars_appendChar, Hb, Hc. reflexivity.
Qed.

(** Empty or all-white-space input has no tokens. *)
Lemma tokenize_blank s : allChars isWhiteSpace s = true -> tokenize s = [].
Proof.
  intros Hs. unfold tokenize, tokenizeInit.
  destruct (tokenizeLoop_blank s EmptyString Hs eq_refl) as (b & -> & Hb).
  rewrite flushToken_blank by exact Hb. reflexivity.
Qed.

Lemma parse_wellFormed this raw e :
  wellFormed raw e ->
  parse this raw
  = Some (mkParseResult (Some e) true None,
          mkParser (tokenize raw) (List.length (tokenize raw))).
Proof.
  intros HD. unfold wellFormed in HD. rewrite parse_unfold.
  destruct (allChars isWhiteSpace raw) eqn:Hws.
  - apply tokenize_blank in Hws. rewrite Hws in HD.
    apply Derives_nonempty in HD. congruence.
  - assert (HR : Run (tokenize raw) (CallOr 0) (Returns e (List.length (tokenize raw)))).
    { apply (Derives_Run (tokenize raw) SymOr (tokenize raw) e HD 0).
      - apply segment_all.
      - cbn [follow]. cbn [Nat.add].
        assert (Hn : currentToken (tokenize raw) (List.length (tokenize raw)) = None)
          by (apply currentToken_None; lia).
        rewrite Hn. split; reflexivity. }
    unfold tryParse.
    assert (E : exec (tokenize raw) (enoughFuel (tokenize raw)) (CallOr 0)
                = Returns e (List.length (tokenize raw))).
    { apply Run_exec_enough; [exact HR|cbn; lia|rewrite callDepth_CallOr; lia]. }
    cbn [exec] in E. rewrite E, Nat.ltb_irrefl. reflexivity.
Qed.

Section SoundnessFacts.

Variable tokens : list string.

Lemma firstn_plus (a b : nat) : forall m : list string,
  firstn (a + b) m = firstn a m ++ firstn b (skipn a m).
Proof.
  induction a as [|a IH]; intros m; [reflexivity|].
  destruct m as [|x m]; cbn [Nat.add firstn skipn app].
  - rewrite firstn_nil. reflexivity.
  - rewrite IH. reflexivity.
Qed.

Lemma slice_nil i : slice tokens i i = [].
Proof. unfold slice. rewrite Nat.sub_diag. reflexivity. Qed.

Lemma slice_app i j k :
  i <= j -> j <= k -> slice tokens i k = slice tokens i j ++ slice tokens j k.
Proof.
  intros Hij Hjk. unfold slice.
  replace (k - i) with ((j - i) + (k - j)) by lia.
  rewrite firstn_plus, skipn_skipn.
  replace (j - i + i) with j by lia. reflexivity.
Qed.

Lemma slice_cons i j t :
  currentToken tokens i = Some t -> i < j ->
  slice tokens i j = t :: slice tokens (S i) j.
Proof.
  intros Ht Hlt. apply currentToken_Some in Ht. destruct Ht as [_ Ht].
  unfold slice.
  assert (Hs : skipn i tokens = t :: skipn (S i) tokens).
  { rewrite <- hd_error_skipn in Ht.
    change (S i) with (1 + i). rewrite <- skipn_skipn.
    destruct (skipn i tokens); [discriminate|].
    cbn in Ht. injection Ht as ->. reflexivity. }
  rewrite Hs. replace (j - i) with (S (j - S i)) by lia. reflexivity.
Qed.

Lemma slice_all : slice tokens 0 (List.length tokens) = tokens.
Proof. unfold slice. rewrite Nat.sub_0_r. cbn [skipn]. apply firstn_all. Qed.

Lemma tokenIs_Some i s :
  tokenIs (currentToken tokens i) s = true -> currentToken tokens i = Some s.
Proof.
  destruct (currentToken tokens i) as [t|]; [|discriminate].
  cbn. intros H. apply String.eqb_eq in H. congruence.
Qed.

Lemma tokenIs_false i t s :
  currentToken tokens i = Some t -> tokenIs (currentToken tokens i) s = false ->
  (t =? s)%string = false.
Proof. intros ->. cbn. tauto. Qed.

(** What the parser accepts is a sentence of the grammar. *)
Lemma Run_Derives c r :
  Run tokens c r -> callIndex c <= List.length tokens -> primaryEntry tokens c ->
  derivesOutcome tokens c r.
Proof.
  induction 1; intros Hle Hentry;
    cbn [derivesOutcome symbolOf callIndex primaryEntry] in *; try exact I.
  - pose proof (Run_advances tokens _ _ H Hle) as [[A1 A2] A3].
    cbn [callIndex] in *. specialize (A3 eq_refl).
    specialize (IHRun1 Hle I). specialize (IHRun2 A2 I).
    pose proof (Run_advances tokens _ _ H0 A2) as B.
    destruct r as [e k| |]; try exact I.
    cbn [derivesOutcome symbolOf callIndex advances] in *.
    rewrite (slice_app i j k) by lia. eapply DerivesOr; eassumption.
  - rewrite slice_nil. apply DerivesOrTail_nil.
  - pose proof (isOperator_lt tokens _ _ H) as Hlt.
    pose proof (Run_advances tokens _ _ H0 Hlt) as [[A1 A2] A3].
    cbn [callIndex] in *. specialize (A3 eq_refl).
    specialize (IHRun1 Hlt I). specialize (IHRun2 A2 I).
    pose proof (Run_advances tokens _ _ H1 A2) as B.
    destruct r as [e k| |]; try exact I.
    cbn [derivesOutcome symbolOf callIndex advances] in *.
    destruct (currentToken tokens i) as [op|] eqn:Hop; [|discriminate].
    rewrite (slice_cons i k op Hop) by lia.
    rewrite (slice_app (S i) j k) by lia.
    eapply DerivesOrTail_cons; eassumption.
  - pose proof (Run_advances tokens _ _ H Hle) as [[A1 A2] A3].
    cbn [callIndex] in *. specialize (A3 eq_refl).
    specialize (IHRun1 Hle I). specialize (IHRun2 A2 I).
    pose proof (Run_advances tokens _ _ H0 A2) as B.
    destruct r as [e k| |]; try exact I.
    cbn [derivesOutcome symbolOf callIndex advances] in *.
    rewrite (slice_app i j k) by lia. eapply DerivesAnd; eassumption.
  - rewrite slice_nil. apply DerivesAndTail_nil.
  - pose proof (isOperator_lt tokens _ _ H) as Hlt.
    pose proof (Run_advances tokens _ _ H0 Hlt) as [[A1 A2] A3].
    cbn [callIndex] in *. specialize (A3 eq_refl).
    specialize (IHRun1 Hlt I). specialize (IHRun2 A2 I).
    pose proof (Run_advances tokens _ _ H1 A2) as B.
    destruct r as [e k| |]; try exact I.
    cbn [derivesOutcome symbolOf callIndex advances] in *.
    destruct (currentToken tokens i) as [op|] eqn:Hop; [|discriminate].
    rewrite (slice_cons i k op Hop) by lia.
    rewrite (slice_app (S i) j k) by lia.
    eapply DerivesAndTail_cons; eassumption.
  - pose proof (isOperator_lt tokens _ _ H) as Hlt.
    pose proof (Run_advances tokens _ _ H0 Hlt) as [[A1 A2] A3].
    cbn [callIndex] in *.
    specialize (IHRun Hlt I).
    destruct (currentToken tokens i) as [op|] eqn:Hop; [|discriminate].
    rewrite (slice_cons i j op Hop) by lia.
    apply DerivesNot_not; assumption.
  - specialize (IHRun Hle H). destruct r; try exact I.
    cbn [derivesOutcome symbolOf callIndex] in *.
    apply DerivesNot_primary. exact IHRun.
  - pose proof (tokenIs_lt tokens _ _ H) as Hlt.
    pose proof (Run_advances tokens _ _ H0 Hlt) as [[A1 A2] A3].
    cbn [callIndex] in *.
    specialize (IHRun Hlt I).
    apply tokenIs_Some in H, H1.
    rewrite (slice_cons i (S j) "(" H) by lia.
    rewrite (slice_app (S i) j (S j)) by lia.
    rewrite (slice_cons j (S j) ")" H1) by lia.
    rewrite slice_nil. apply DerivesPrimary_group. exact IHRun.
  - rewrite (slice_cons i (S i) t H1) by lia. rewrite slice_nil.
    apply DerivesPrimary_term. unfold isTermToken, isKeyword.
    rewrite (tokenIs_false i t "(" H1 H), (tokenIs_false i t ")" H1 H0), H2.
    rewrite H1 in H3, Hentry. rewrite H3, Hentry. reflexivity.
Qed.

End SoundnessFacts.

Lemma parse_valid_wellFormed this raw r this' e :
  parse this raw = Some (r, this') -> isValid r = true -> expression r = Some e ->
  wellFormed raw e.
Proof.
  intros Hp Hv He.
  destruct (parse_valid_Run this raw r this' Hp Hv e He) as (j & HR & ->).
  apply Run_Derives in HR; [|cbn; lia|exact I].
  cbn [derivesOutcome symbolOf callIndex] in HR.
  rewrite slice_all in HR. exact HR.
Qed.

(** ** Operator precedence *)

Lemma notLevel_andLevel e : notLevel e = true -> andLevel e = true.
Proof. destruct e; cbn; congruence. Qed.

Lemma andLevel_orLevel e : andLevel e = true -> orLevel e = true.
Proof. destruct e; cbn; congruence. Qed.

Section PrecedenceFacts.

Variable tokens : list string.

Hypothesis no_parentheses : forall i, tokenIs (currentToken tokens i) "(" = false.

Lemma Run_level c r : Run tokens c r -> levelOnEntry c -> levelOnReturn c r.
Proof.
  induction 1; cbn [levelOnEntry levelOnReturn levelOfCall] in *; intros Hc;
    try exact I;
    try match goal with
        | H : tokenIs (currentToken tokens _) "(" = true |- _ =>
            rewrite no_parentheses in H; discriminate H
        end;
    auto.
  - specialize (IHRun1 I).
    assert (Hl : orLevel l = true) by (apply andLevel_orLevel, IHRun1).
    specialize (IHRun2 Hl). destruct r; auto.
  - specialize (IHRun1 I).
    assert (Hl : orLevel (OrExpression l rh) = true)
      by (cbn [orLevel]; rewrite Hc, IHRun1; reflexivity).
    specialize (IHRun2 Hl). destruct r; auto.
  - specialize (IHRun1 I).
    assert (Hl : andLevel l = true) by (apply notLevel_andLevel, IHRun1).
    specialize (IHRun2 Hl). destruct r; auto.
  - specialize (IHRun1 I).
    assert (Hl : andLevel (AndExpression l rh) = true)
      by (cbn [andLevel]; rewrite Hc, IHRun1; reflexivity).
    specialize (IHRun2 Hl). destruct r; auto.
Qed.

End PrecedenceFacts.

(** C2.  Precedence from low to high is OR, AND, NOT.  The concrete trees:
    AND under OR (true on the tags Python and Django), NOT under AND, NOT
    chained, and parentheses overriding both.  In general the tree of a
    valid parse is the one the layered grammar gives to the tokens; and
    when the input has no parenthesis token, it is a left-nested disjunction
    of left-nested conjunctions of NOT chains over terms: no OR below an
    AND, and no AND or OR below a NOT. *)
Theorem parse_precedence :
  option_map fst (parse newParser "Java OR Python AND Django")
  = Some (mkParseResult
            (Some (OrExpression (TermExpression "Java")
                     (AndExpression (TermExpression "Python") (TermExpression "Django"))))
            true None) /\
  evaluate (OrExpression (TermExpression "Java")
              (AndExpression (TermExpression "Python") (TermExpression "Django")))
           sampleTechStack = true /\
  option_map fst (parse newParser "NOT NOT X")
  = Some (mkParseResult
            (Some (NotExpression (NotExpression (TermExpression "X")))) true None) /\
  option_map fst (parse newParser "NOT Java AND Python")
  = Some (mkParseResult
            (Some (AndExpression (NotExpression (TermExpression "Java"))
                     (TermExpression "Python")))
            true None) /\
  option_map fst (parse newParser "(Java OR Ruby) AND NOT (Django AND Flask)")
  = Some (mkParseResult
            (Some (AndExpression
                     (OrExpression (TermExpression "Java") (TermExpression "Ruby"))
                     (NotExpression
                        (AndExpression (TermExpression "Django") (TermExpression "Flask")))))
            true None) /\
  option_map fst (parse newParser "(Java OR Ruby) AND Django")
  = Some (mkParseResult
            (Some (AndExpression
                     (OrExpression (TermExpression "Java") (TermExpression "Ruby"))
                     (TermExpression "Django")))
            true None) /\
  evaluate (AndExpression
              (OrExpression (TermExpression "Java") (TermExpression "Ruby"))
              (TermExpression "Django"))
           sampleTechStack = false /\
  (forall this raw r this' e,
     parse this raw = Some (r, this') -> isValid r = true -> expression r = Some e ->
     wellFormed raw e) /\
  (forall this raw r this' e,
     parse this raw = Some (r, this') -> isValid r = true -> expression r = Some e ->
     ~ In "(" (tokenize raw) ->
     orLevel e = true).
Proof.
  repeat (split; [reflexivity|]).
  split; [exact parse_valid_wellFormed|].
  intros this raw r this' e Hp Hv He Hno.
  destruct (parse_valid_Run this raw r this' Hp Hv e He) as (j & HR & _).
  apply (Run_level (tokenize raw)) in HR; [exact HR| |exact I].
  intros i. destruct (currentToken (tokenize raw) i) as [t|] eqn:Ht; [|reflexivity].
  cbn. apply String.eqb_neq. intros ->.
  apply currentToken_Some in Ht. destruct Ht as [_ Ht].
  apply nth_error_In in Ht. contradiction.
Qed.

Lemma parse_precedence_witness :
  orLevel (OrExpression
             (AndExpression (NotExpression (TermExpression "Java")) (TermExpression "Python"))
             (TermExpression "Ruby")) = true.
Proof.
  destruct parse_precedence as (_ & _ & _ & _ & _ & _ & _ & _ & H).
  apply (H newParser "NOT Java AND Python OR Ruby"
           (mkParseResult
              (Some (OrExpression
                       (AndExpression (NotExpression (TermExpression "Java"))
                          (TermExpression "Python"))
                       (TermExpression "Ruby"))) true None)
           (mkParser ["NOT"; "Java"; "AND"; "Python"; "OR"; "Ruby"] 6));
    [reflexivity|reflexivity|reflexivity|].
  vm_compute. intros [H1|[H1|[H1|[H1|[H1|[H1|[]]]]]]]; discriminate H1.
Defined.

(** ** The syntax errors *)

Section ErrorFacts.

Variable tokens : list string.

Hypothesis tokens_not_empty : Forall (fun t => truthy t = true) tokens.




End ErrorFacts.






Lemma tryParse_trailing tokens fuel e j :
  parseOrExpression tokens fuel 0 = Returns e j -> j < List.length tokens ->
  tryParse tokens fuel = Throws "Unexpected tokens after parsing" j.
Proof.
  intros Hor Hlt. unfold tryParse. rewrite Hor.
  apply Nat.ltb_lt in Hlt. rewrite Hlt. reflexivity.
Qed.

(** ** Facts about the call stack *)

Section StackFacts.

Variable tokens : list string.

Ltac unfold_stack_goal :=
  cbn [execOnStack exec]; unfold consumeToken;
  first [ rewrite parseOrExpression_S
        | rewrite parseOrLoop_S
        | rewrite parseAndExpression_S
        | rewrite parseAndLoop_S
        | rewrite parseNotExpression_S
        | rewrite parsePrimaryExpression_S ].

(** A sub-call on the stack: it ends as the call without the bound does, or
    the whole call ends with the [RangeError]. *)
Ltac stack_subcall IH stack c' :=
  let E := fresh "E" in
  let j := fresh "j" in
  destruct (IH stack c') as [E|[j E]]; rewrite E; cbn [exec];
  [|right; exists j; reflexivity].

(** A run on the stack ends as the run without the bound does, or with the
    [RangeError]. *)
Lemma execOnStack_cases fuel : forall stack c,
  execOnStack tokens fuel stack c = exec tokens fuel c \/
  exists j, execOnStack tokens fuel stack c = Throws stackOverflowMessage j.
Proof.
  induction fuel as [|fuel IH]; intros stack c.
  - left. destruct c; reflexivity.
  - destruct c as [i|l i|i|l i|i|i];
      try (destruct stack as [|stack]; [right; eexists; reflexivity|]);
      unfold_stack_goal.
    + stack_subcall IH stack (CallAnd i).
      destruct (parseAndExpression tokens fuel i) as [l j|m j|];
        [apply (IH stack (CallOrLoop l j))|left; reflexivity..].
    + destruct (isOperator (currentToken tokens i) "OR"); [|left; reflexivity].
      stack_subcall IH stack (CallAnd (S i)).
      destruct (parseAndExpression tokens fuel (S i)) as [rh j|m j|];
        [apply (IH stack (CallOrLoop (OrExpression l rh) j))|left; reflexivity..].
    + stack_subcall IH stack (CallNot i).
      destruct (parseNotExpression tokens fuel i) as [l j|m j|];
        [apply (IH stack (CallAndLoop l j))|left; reflexivity..].
    + destruct (isOperator (currentToken tokens i) "AND"); [|left; reflexivity].
      stack_subcall IH stack (CallNot (S i)).
      destruct (parseNotExpression tokens fuel (S i)) as [rh j|m j|];
        [apply (IH stack (CallAndLoop (AndExpression l rh) j))|left; reflexivity..].
    + destruct (isOperator (currentToken tokens i) "NOT").
      * stack_subcall IH stack (CallNot (S i)). left. reflexivity.
      * apply (IH stack (CallPrimary i)).
    + destruct (tokenIs (currentToken tokens i) "("); [|left; reflexivity].
      stack_subcall IH stack (CallOr (S i)). left. reflexivity.
Qed.

(** The bounds on the index a sub-call returns. *)
Ltac returned_index E :=
  match type of E with
  | exec tokens ?fuel ?c = Returns ?l ?j =>
      let Hadv := fresh "Hadv" in
      assert (Hadv : advances tokens c (exec tokens fuel c))
        by (apply exec_advances; [rewrite E; discriminate|cbn [callIndex]; lia]);
      rewrite E in Hadv; unfold advances in Hadv; cbn [callIndex isLoop] in Hadv;
      let A := fresh "A" in
      let B := fresh "B" in
      destruct Hadv as [A B]; try specialize (B eq_refl)
  end.

Ltac stack_bound :=
  unfold stackDepth in *; cbn [callIndex stackRank] in *; lia.

(** With room for four calls for each remaining token the stack is not
    exhausted. *)
Lemma execOnStack_enough fuel : forall stack c,
  callIndex c <= List.length tokens ->
  stackDepth tokens c <= stack ->
  execOnStack tokens fuel stack c = exec tokens fuel c.
Proof.
  induction fuel as [|fuel IH]; intros stack c Hle Hst.
  - destruct c; reflexivity.
  - destruct c as [i|l i|i|l i|i|i]; cbn [callIndex] in Hle;
      try (destruct stack as [|stack]; [exfalso; stack_bound|]);
      unfold_stack_goal.
    + rewrite (IH stack (CallAnd i)) by stack_bound. cbn [exec].
      destruct (exec tokens fuel (CallAnd i)) as [l j|m j|] eqn:E;
        cbn [exec] in E; rewrite E; [|reflexivity..].
      change (parseAndExpression tokens fuel i) with (exec tokens fuel (CallAnd i)) in E.
      returned_index E.
      apply (IH stack (CallOrLoop l j)); stack_bound.
    + destruct (isOperator (currentToken tokens i) "OR") eqn:Hop; [|reflexivity].
      apply isOperator_lt in Hop.
      rewrite (IH stack (CallAnd (S i))) by stack_bound. cbn [exec].
      destruct (exec tokens fuel (CallAnd (S i))) as [rh j|m j|] eqn:E;
        cbn [exec] in E; rewrite E; [|reflexivity..].
      change (parseAndExpression tokens fuel (S i))
        with (exec tokens fuel (CallAnd (S i))) in E.
      returned_index E.
      apply (IH stack (CallOrLoop (OrExpression l rh) j)); stack_bound.
    + rewrite (IH stack (CallNot i)) by stack_bound. cbn [exec].
      destruct (exec tokens fuel (CallNot i)) as [l j|m j|] eqn:E;
        cbn [exec] in E; rewrite E; [|reflexivity..].
      change (parseNotExpression tokens fuel i) with (exec tokens fuel (CallNot i)) in E.
      returned_index E.
      apply (IH stack (CallAndLoop l j)); stack_bound.
    + destruct (isOperator (currentToken tokens i) "AND") eqn:Hop; [|reflexivity].
      apply isOperator_lt in Hop.
      rewrite (IH stack (CallNot (S i))) by stack_bound. cbn [exec].
      destruct (exec tokens fuel (CallNot (S i))) as [rh j|m j|] eqn:E;
        cbn [exec] in E; rewrite E; [|reflexivity..].
      change (parseNotExpression tokens fuel (S i))
        with (exec tokens fuel (CallNot (S i))) in E.
      returned_index E.
      apply (IH stack (CallAndLoop (AndExpression l rh) j)); stack_bound.
    + destruct (isOperator (currentToken tokens i) "NOT") eqn:Hop.
      * apply isOperator_lt in Hop.
        rewrite (IH stack (CallNot (S i))) by stack_bound. reflexivity.
      * apply (IH stack (CallPrimary i)); stack_bound.
    + destruct (tokenIs (currentToken tokens i) "(") eqn:Hopen; [|reflexivity].
      apply tokenIs_lt in Hopen.
      rewrite (IH stack (CallOr (S i))) by stack_bound. reflexivity.
Qed.

(** Opening parentheses in a row take four calls each: with no more room
    than that, the stack is exhausted. *)
Lemma execOnStack_nested k : forall fuel stack i,
  stack <= 4 * k -> stack < fuel ->
  (forall j, j < k -> currentToken tokens (i + j) = Some "(") ->
  exists j, execOnStack tokens fuel stack (CallOr i) = Throws stackOverflowMessage j.
Proof.
  induction k as [|k IH]; intros fuel stack i Hst Hfuel Hopen.
  - destruct fuel as [|fuel]; [lia|]. destruct stack as [|stack]; [|lia].
    eexists. reflexivity.
  - assert (H0 : currentToken tokens i = Some "(")
      by (rewrite <- (Nat.add_0_r i); apply Hopen; lia).
    destruct fuel as [|f1]; [lia|].
    destruct stack as [|s1]; [eexists; reflexivity|]. cbn [execOnStack].
    destruct f1 as [|f2]; [lia|].
    destruct s1 as [|s2]; [eexists; reflexivity|]. cbn [execOnStack].
    destruct f2 as [|f3]; [lia|].
    destruct s2 as [|s3]; [eexists; reflexivity|]. cbn [execOnStack].
    rewrite H0.
    change (isOperator (Some "(") "NOT") with false. cbv iota.
    destruct f3 as [|f4]; [lia|].
    destruct s3 as [|s4]; [eexists; reflexivity|]. cbn [execOnStack].
    rewrite H0. change (tokenIs (Some "(") "(") with true. cbv iota.
    destruct (IH f4 s4 (consumeToken i)) as [j E]; [lia|lia| |].
    + intros j Hj. unfold consumeToken.
      replace (S i + j) with (i + S j) by lia. apply Hopen. lia.
    + rewrite E. exists j. reflexivity.
Qed.

End StackFacts.

Lemma execOnStack_not_OutOfFuel tokens stack :
  execOnStack tokens (enoughFuel tokens) stack (CallOr 0) <> OutOfFuel.
Proof.
  destruct (execOnStack_cases tokens (enoughFuel tokens) stack (CallOr 0)) as [E|[j E]];
    rewrite E; [|discriminate].
  apply (parseOrExpression_enough tokens (enoughFuel tokens) (le_n _)).
Qed.

(** The [try] block on the stack ends as it does without the bound, or
    with the [RangeError]. *)
Lemma tryParseOnStack_cases tokens stack :
  tryParseOnStack tokens (enoughFuel tokens) stack = tryParse tokens (enoughFuel tokens) \/
  (stack < enoughFuel tokens /\
   exists j, tryParseOnStack tokens (enoughFuel tokens) stack
             = Throws stackOverflowMessage j).
Proof.
  unfold tryParseOnStack, tryParse.
  destruct (Nat.le_gt_cases (enoughFuel tokens) stack) as [Hle|Hgt].
  - left. rewrite (execOnStack_enough tokens); [reflexivity|cbn; lia|].
    unfold stackDepth, enoughFuel in *. cbn [callIndex stackRank]. lia.
  - destruct (execOnStack_cases tokens (enoughFuel tokens) stack (CallOr 0)) as [E|[j E]];
      rewrite E; [left; reflexivity|right].
    split; [exact Hgt|exists j; reflexivity].
Qed.

Lemma tryParseOnStack_enough tokens stack :
  enoughFuel tokens <= stack ->
  tryParseOnStack tokens (enoughFuel tokens) stack = tryParse tokens (enoughFuel tokens).
Proof.
  intros Hle. destruct (tryParseOnStack_cases tokens stack) as [E|[Hlt _]]; [exact E|lia].
Qed.

Lemma parseOnStack_unfold stack this raw :
  parseOnStack stack this raw =
  if allChars isWhiteSpace raw then Some (mkParseResult None true None, this)
  else
    match tryParseOnStack (tokenize raw) (enoughFuel (tokenize raw)) stack with
    | Returns result idx =>
        Some (mkParseResult (Some result) true None, mkParser (tokenize raw) idx)
    | Throws message idx =>
        Some (mkParseResult (Some (TermExpression raw)) false (Some message),
              mkParser (tokenize raw) idx)
    | OutOfFuel => None
    end.
Proof.
  unfold parseOnStack.
  destruct (allChars isWhiteSpace raw) eqn:Hws.
  - apply trim_empty in Hws. rewrite Hws. cbn. rewrite orb_true_r. reflexivity.
  - assert (Hne : trim raw <> EmptyString)
      by (intros E; apply trim_empty in E; congruence).
    apply String.eqb_neq in Hne. rewrite Hne.
    destruct raw as [|c raw]; [discriminate Hws|reflexivity].
Qed.

(** With room enough on the stack, [parseOnStack] is [parse]. *)
Lemma parseOnStack_enough stack this raw :
  enoughFuel (tokenize raw) <= stack -> parseOnStack stack this raw = parse this raw.
Proof.
  intros Hle. rewrite parseOnStack_unfold, parse_unfold.
  rewrite (tryParseOnStack_enough _ _ Hle). reflexivity.
Qed.

(** [parseOnStack] has a result whatever the room on the stack: that of
    [parse], or the fallback with the message of the [RangeError]. *)
Lemma parseOnStack_cases stack this raw :
  parseOnStack stack this raw = parse this raw \/
  (stack < enoughFuel (tokenize raw) /\
   exists j,
     parseOnStack stack this raw
     = Some (mkParseResult (Some (TermExpression raw)) false (Some stackOverflowMessage),
             mkParser (tokenize raw) j)).
Proof.
  rewrite parseOnStack_unfold, parse_unfold.
  destruct (allChars isWhiteSpace raw); [left; reflexivity|].
  destruct (tryParseOnStack_cases (tokenize raw) stack) as [E|[Hlt [j E]]]; rewrite E.
  - left. reflexivity.
  - right. split; [exact Hlt|]. exists j. reflexivity.
Qed.

Lemma parseOnStack_total stack this raw : parseOnStack stack this raw <> None.
Proof.
  destruct (parseOnStack_cases stack this raw) as [E|[_ [j E]]]; rewrite E;
    [|discriminate].
  rewrite parse_unfold. destruct (allChars isWhiteSpace raw); [discriminate|].
  pose proof (tryParse_not_OutOfFuel (tokenize raw)) as Hne.
  destruct (tryParse (tokenize raw) (enoughFuel (tokenize raw)));
    [discriminate|discriminate|congruence].
Qed.

(** *** The nested term *)

Lemma tokenizeLoop_parens c n : forall st s,
  c = lparen \/ c = rparen ->
  tkInQuotes st = false -> tkCurrentToken st = EmptyString ->
  tokenizeLoop st (repeatChar c n s)
  = tokenizeLoop
      (mkTokenizerState (tkTokens st ++ repeat (String c EmptyString) n) EmptyString false)
      s.
Proof.
  induction n as [|n IH]; intros st s Hc Hq Hb; cbn [repeatChar repeat tokenizeLoop].
  - rewrite app_nil_r. destruct st as [ts b q]. cbn in Hq, Hb. subst. reflexivity.
  - rewrite (tokenizeChar_paren st c Hq Hc), flushToken_spec, Hb.
    cbn [trim trimStart trimEnd truthy pushToken tkTokens tkCurrentToken tkInQuotes].
    rewrite IH by (auto; cbn; assumption).
    cbn [tkTokens pushToken]. rewrite app_nil_r, <- app_assoc. reflexivity.
Qed.

Lemma tokenize_nestedTerm n :
  tokenize (nestedTerm n) = repeat "(" n ++ "x" :: repeat ")" n.
Proof.
  unfold tokenize, nestedTerm, tokenizeInit.
  rewrite (tokenizeLoop_parens lparen) by auto.
  cbn [tokenizeLoop tkTokens app].
  destruct n as [|n].
  - reflexivity.
  - cbn [repeatChar tokenizeLoop].
    rewrite (tokenizeChar_paren _ rparen) by (try reflexivity; auto).
    rewrite (tokenizeLoop_parens rparen) by (try reflexivity; auto).
    cbn [tokenizeLoop]. rewrite !flushToken_spec.
    cbn [tkTokens tkCurrentToken tkInQuotes pushToken].
    change (trim "x") with "x". change (trim EmptyString) with EmptyString.
    cbn [truthy]. rewrite app_nil_r, <- !app_assoc. reflexivity.
Qed.

Lemma Derives_parens ts e :
  Derives SymOr ts e -> Derives SymOr ("(" :: ts ++ [")"]) e.
Proof.
  intros H.
  rewrite <- (app_nil_r ("(" :: ts ++ [")"])).
  apply (DerivesOr _ e []); [|apply DerivesOrTail_nil].
  rewrite <- (app_nil_r ("(" :: ts ++ [")"])).
  apply (DerivesAnd _ e []); [|apply DerivesAndTail_nil].
  apply DerivesNot_primary, DerivesPrimary_group, H.
Qed.

Lemma nestedTerm_wellFormed n : wellFormed (nestedTerm n) (TermExpression "x").
Proof.
  unfold wellFormed. rewrite tokenize_nestedTerm.
  induction n as [|n IH].
  - cbn [repeat app].
    apply (DerivesOr ["x"] (TermExpression "x") []); [|apply DerivesOrTail_nil].
    apply (DerivesAnd ["x"] (TermExpression "x") []); [|apply DerivesAndTail_nil].
    apply DerivesNot_primary, DerivesPrimary_term. reflexivity.
  - replace (repeat "(" (S n) ++ "x" :: repeat ")" (S n))
      with ("(" :: (repeat "(" n ++ "x" :: repeat ")" n) ++ [")"]).
    + apply Derives_parens, IH.
    + cbn [repeat app]. f_equal. rewrite <- app_assoc. f_equal.
      cbn [app]. f_equal. symmetry. apply (repeat_cons n ")").
Qed.

(** With room for no more than four calls for each pair of parentheses,
    the nested term exhausts the stack. *)
Lemma parseOnStack_nestedTerm stack this n :
  stack <= 4 * n ->
  exists j,
    parseOnStack stack this (nestedTerm n)
    = Some (mkParseResult (Some (TermExpression (nestedTerm n))) false
              (Some stackOverflowMessage),
            mkParser (tokenize (nestedTerm n)) j).
Proof.
  intros Hst. rewrite parseOnStack_unfold.
  assert (Hws : allChars isWhiteSpace (nestedTerm n) = false).
  { destruct (allChars isWhiteSpace (nestedTerm n)) eqn:E; [|reflexivity].
    apply tokenize_blank in E. rewrite tokenize_nestedTerm in E.
    destruct n; discriminate E. }
  rewrite Hws. unfold tryParseOnStack.
  destruct (execOnStack_nested (tokenize (nestedTerm n)) n
              (enoughFuel (tokenize (nestedTerm n))) stack 0) as [j E].
  - exact Hst.
  - unfold enoughFuel. rewrite tokenize_nestedTerm, length_app, repeat_length. lia.
  - intros j Hj. rewrite tokenize_nestedTerm. unfold currentToken.
    assert (Hlt : j < List.length (repeat "(" n ++ "x" :: repeat ")" n))
      by (rewrite length_app, repeat_length; lia).
    apply Nat.ltb_lt in Hlt. cbn [Nat.add]. rewrite Hlt.
    rewrite nth_error_app1 by (rewrite repeat_length; exact Hj).
    apply nth_error_repeat. exact Hj.
  - rewrite E. exists j. reflexivity.
Qed.

(** *** Failures *)





(** *** Determinism and the well-formed inputs *)

(** C8, as the code has it.  [parse] is deterministic: for a given room on
    the call stack its result depends on the input string only, not on the
    state an earlier call left in the parser object, so parsing the same
    string again gives the same tree, validity and message; and it always
    has a result.  A well-formed input, one whose tokens are a sentence of
    the grammar, is valid and parses to the tree of the sentence when the
    stack has room for four calls per token and four more; every valid
    result is that of a well-formed input.  Whatever the room, some
    well-formed input is not valid: the term within parentheses nested
    deeper than a quarter of the room. *)
Theorem parse_deterministic_on_stack :
  (forall stack this1 this2 raw,
     option_map fst (parseOnStack stack this1 raw)
     = option_map fst (parseOnStack stack this2 raw)) /\
  (forall stack this raw r this',
     parseOnStack stack this raw = Some (r, this') ->
     option_map fst (parseOnStack stack this' raw) = Some r) /\
  (forall stack this raw, exists r this', parseOnStack stack this raw = Some (r, this')) /\
  (forall stack this raw e,
     wellFormed raw e -> enoughFuel (tokenize raw) <= stack ->
     option_map fst (parseOnStack stack this raw)
     = Some (mkParseResult (Some e) true None)) /\
  (forall stack this raw r this' e,
     parseOnStack stack this raw = Some (r, this') ->
     isValid r = true -> expression r = Some e ->
     wellFormed raw e) /\
  (forall stack this n,
     stack <= 4 * n ->
     wellFormed (nestedTerm n) (TermExpression "x") /\
     option_map fst (parseOnStack stack this (nestedTerm n))
     = Some (mkParseResult (Some (TermExpression (nestedTerm n))) false
               (Some stackOverflowMessage))).
Proof.
  assert (Hdet : forall stack this1 this2 raw,
             option_map fst (parseOnStack stack this1 raw)
             = option_map fst (parseOnStack stack this2 raw)).
  { intros stack this1 this2 raw. rewrite !parseOnStack_unfold.
    destruct (allChars isWhiteSpace raw); [reflexivity|].
    destruct (tryParseOnStack (tokenize raw) (enoughFuel (tokenize raw)) stack);
      reflexivity. }
  split; [exact Hdet|]. split; [|split; [|split; [|split]]].
  - intros stack this raw r this' Hp. rewrite (Hdet stack this' this raw), Hp. reflexivity.
  - intros stack this raw.
    destruct (parseOnStack stack this raw) as [[r this']|] eqn:E.
    + exists r, this'. reflexivity.
    + exfalso. exact (parseOnStack_total stack this raw E).
  - intros stack this raw e HD Hle.
    rewrite (parseOnStack_enough stack this raw Hle), (parse_wellFormed this raw e HD).
    reflexivity.
  - intros stack this raw r this' e Hp Hv He.
    destruct (parseOnStack_cases stack this raw) as [E|[_ [j E]]]; rewrite E in Hp.
    + exact (parse_valid_wellFormed this raw r this' e Hp Hv He).
    + injection Hp as <- _. discriminate Hv.
  - intros stack this n Hst. split; [apply nestedTerm_wellFormed|].
    destruct (parseOnStack_nestedTerm stack this n Hst) as [j E].
    rewrite E. reflexivity.
Qed.

Lemma parse_deterministic_on_stack_witness :
  option_map fst (parseOnStack 16 (mkParser ["Java"; "OR"; "Ruby"] 3) "Java OR Ruby")
  = Some (mkParseResult (Some (OrExpression (TermExpression "Java") (TermExpression "Ruby")))
            true None) /\
  option_map fst (parseOnStack 12 newParser "NOT x")
  = Some (mkParseResult (Some (NotExpression (TermExpression "x"))) true None) /\
  option_map fst (parseOnStack 12 newParser (nestedTerm 3))
  = Some (mkParseResult (Some (TermExpression (nestedTerm 3))) false
            (Some stackOverflowMessage)).
Proof.
  destruct parse_deterministic_on_stack as (_ & Hagain & _ & Hwf & _ & Hn).
  split; [|split].
  - apply (Hagain 16 newParser "Java OR Ruby"). reflexivity.
  - apply (Hwf 12 newParser "NOT x"); [|vm_compute; lia]. unfold wellFormed.
    apply (DerivesOr ["NOT"; "x"] (NotExpression (TermExpression "x")) []);
      [|apply DerivesOrTail_nil].
    apply (DerivesAnd ["NOT"; "x"] (NotExpression (TermExpression "x")) []);
      [|apply DerivesAndTail_nil].
    apply DerivesNot_not; [reflexivity|].
    apply DerivesNot_primary, DerivesPrimary_term. reflexivity.
  - apply (Hn 12 newParser 3). cbn. lia.
Defined.

(** A well-formed input that is not valid: the term within 2500 pairs of
    parentheses, on a call stack with room for ten thousand calls. *)
Lemma parse_wellFormed_counterexample :
  wellFormed (nestedTerm 2500) (TermExpression "x") /\
  option_map (fun p => isValid (fst p))
    (parseOnStack (4 * 2500) newParser (nestedTerm 2500))
  = Some false.
Proof.
  split; [apply nestedTerm_wellFormed|].
  destruct (parseOnStack_nestedTerm (4 * 2500) newParser 2500 (le_n _)) as [j E].
  rewrite E. reflexivity.
Qed.

(** * Further properties *)

(** ** Evaluation and the tag list *)

Lemma evaluate_term_iff term techStack :
  evaluate (TermExpression term) techStack = true <->
  In (normalize term) (tagForms techStack).
Proof.
  cbn [evaluate]. fold (normalize term).
  induction techStack as [|[t|] rest IH]; cbn [existsb tagForms techMatches In].
  - split; [discriminate|tauto].
  - fold (normalize t). rewrite orb_true_iff, IH, String.eqb_eq.
    split; intros [H|H]; auto.
  - rewrite orb_false_l. exact IH.
Qed.

Lemma formsIncluded_spec forms1 forms2 :
  formsIncluded forms1 forms2 = true <-> (forall n, In n forms1 -> In n forms2).
Proof.
  unfold formsIncluded. rewrite forallb_forall. split; intros H n Hn.
  - apply H in Hn. apply existsb_exists in Hn. destruct Hn as (m & Hm & E).
    apply String.eqb_eq in E. subst m. exact Hm.
  - apply existsb_exists. exists n. split; [apply H, Hn|apply String.eqb_refl].
Qed.

(** X1.  The value of an expression depends on the tag list only through
    the set of normal forms (lower-cased, trimmed) of the tags that are
    present: order, repetition, letter case, surrounding white space and
    missing entries make no difference.  Letter case and white space are
    those of [toLowerCase] and [trim], the capital letters of Latin-1 and
    the no-break space included. *)
Theorem evaluate_same_tag_forms e techStack1 techStack2 :
  sameTagForms techStack1 techStack2 = true ->
  evaluate e techStack1 = evaluate e techStack2.
Proof.
  unfold sameTagForms. rewrite andb_true_iff, !formsIncluded_spec. intros [H12 H21].
  induction e as [term|e IH|l IHl r IHr|l IHl r IHr]; cbn [evaluate].
  - apply eq_true_iff_eq. fold (evaluate (TermExpression term) techStack1).
    fold (evaluate (TermExpression term) techStack2).
    rewrite !evaluate_term_iff. split; auto.
  - cbn [evaluate] in IH. rewrite IH. reflexivity.
  - rewrite IHl, IHr. reflexivity.
  - rewrite IHl, IHr. reflexivity.
Qed.

Lemma evaluate_same_tag_forms_witness :
  evaluate (AndExpression (TermExpression "python") (NotExpression (TermExpression "Java")))
    [Some " PYTHON "; None; Some "Django"]
  = evaluate (AndExpression (TermExpression "python") (NotExpression (TermExpression "Java")))
      [Some "django"; Some "python"; Some "Python"] /\
  evaluate (TermExpression (String "233" "t")) [Some (String "160" (String "201" "T")); None]
  = evaluate (TermExpression (String "233" "t")) [Some (String "233" "t")].
Proof.
  split.
  - apply (evaluate_same_tag_forms
             (AndExpression (TermExpression "python") (NotExpression (TermExpression "Java")))
             [Some " PYTHON "; None; Some "Django"]
             [Some "django"; Some "python"; Some "Python"]).
    reflexivity.
  - apply (evaluate_same_tag_forms (TermExpression (String "233" "t"))
             [Some (String "160" (String "201" "T")); None]
             [Some (String "233" "t")]).
    reflexivity.
Defined.

(** ** The shape of tokens *)

Lemma trimEnd_cons c r :
  trimEnd (String c r) =
  match trimEnd r with
  | EmptyString => if isWhiteSpace c then EmptyString else String c EmptyString
  | String a b => String c (String a b)
  end.
Proof. cbn [trimEnd]. destruct (trimEnd r); reflexivity. Qed.

Lemma trimEnd_idempotent s : trimEnd (trimEnd s) = trimEnd s.
Proof.
  induction s as [|c s IH]; [reflexivity|].
  rewrite (trimEnd_cons c s). destruct (trimEnd s) as [|d r] eqn:E.
  - destruct (isWhiteSpace c) eqn:Hc; [reflexivity|].
    cbn [trimEnd]. rewrite Hc. reflexivity.
  - rewrite (trimEnd_cons c (String d r)), IH. reflexivity.
Qed.

Lemma trimStart_startsClean s : startsClean (trimStart s).
Proof.
  induction s as [|c s IH]; [exact I|].
  cbn [trimStart]. destruct (isWhiteSpace c) eqn:E; [exact IH|exact E].
Qed.

Lemma trimStart_of_startsClean s : startsClean s -> trimStart s = s.
Proof. destruct s as [|c s]; [reflexivity|]. cbn. intros ->. reflexivity. Qed.

Lemma trimEnd_startsClean s : startsClean s -> startsClean (trimEnd s).
Proof.
  destruct s as [|c s]; [exact (fun H => H)|].
  cbn [startsClean trimEnd]. intros Hc.
  destruct (trimEnd s); [rewrite Hc|]; exact Hc.
Qed.

Lemma trim_idempotent s : trim (trim s) = trim s.
Proof.
  unfold trim.
  rewrite (trimStart_of_startsClean (trimEnd (trimStart s)))
    by apply trimEnd_startsClean, trimStart_startsClean.
  apply trimEnd_idempotent.
Qed.

Lemma flushToken_trimmed st :
  Forall trimmedToken (tkTokens st) -> Forall trimmedToken (tkTokens (flushToken st)).
Proof.
  intros H. rewrite flushToken_spec. cbn [tkTokens].
  apply Forall_app. split; [exact H|].
  destruct (truthy (trim (tkCurrentToken st))) eqn:E; [|constructor].
  constructor; [|constructor]. split; [apply trim_idempotent|].
  apply truthy_true, E.
Qed.

Lemma tokenizeChar_trimmed st c :
  Forall trimmedToken (tkTokens st) -> Forall trimmedToken (tkTokens (tokenizeChar st c)).
Proof.
  intros H. unfold tokenizeChar.
  destruct (Ascii.eqb c dquote); [exact H|].
  destruct (tkInQuotes st); [exact H|].
  destruct (Ascii.eqb_spec c lparen) as [->|Hl];
    [|destruct (Ascii.eqb_spec c rparen) as [->|Hr]]; cbn [orb].
  - unfold pushToken. cbn [tkTokens]. apply Forall_app.
    split; [apply flushToken_trimmed, H|].
    constructor; [|constructor]. split; [reflexivity|discriminate].
  - unfold pushToken. cbn [tkTokens]. apply Forall_app.
    split; [apply flushToken_trimmed, H|].
    constructor; [|constructor]. split; [reflexivity|discriminate].
  - destruct (Ascii.eqb c space || Ascii.eqb c tab);
      [apply flushToken_trimmed, H|exact H].
Qed.

Lemma tokenizeLoop_trimmed s : forall st,
  Forall trimmedToken (tkTokens st) -> Forall trimmedToken (tkTokens (tokenizeLoop st s)).
Proof.
  induction s as [|c s IH]; intros st H; [exact H|].
  cbn [tokenizeLoop]. apply IH, tokenizeChar_trimmed, H.
Qed.

(** X2.  Every token is trimmed and not empty: it neither starts nor ends
    with white space, also when it was written in quotes with spaces
    inside the quotes. *)
Theorem tokenize_tokens_trimmed s t :
  In t (tokenize s) -> trim t = t /\ t <> EmptyString.
Proof.
  intros Hin.
  assert (H : Forall trimmedToken (tokenize s)).
  { unfold tokenize. apply flushToken_trimmed, tokenizeLoop_trimmed. constructor. }
  rewrite Forall_forall in H. apply (H t Hin).
Qed.

Lemma tokenize_tokens_trimmed_witness :
  trim "Machine Learning" = "Machine Learning" /\ "Machine Learning" <> EmptyString.
Proof.
  apply (tokenize_tokens_trimmed (quoted "  Machine Learning ") "Machine Learning").
  vm_compute. left. reflexivity.
Defined.

Lemma plainToken_trim t : plainToken t = true -> plainToken (trim t) = true.
Proof.
  unfold plainToken. rewrite !andb_true_iff, !negb_true_iff.
  intros [[[H1 H2] H3] H4]. repeat split; apply hasChar_trim; assumption.
Qed.

Lemma plainToken_appendChar t c :
  plainToken t = true ->
  Ascii.eqb c lparen || Ascii.eqb c rparen = false ->
  Ascii.eqb c space || Ascii.eqb c tab = false ->
  plainToken (appendChar t c) = true.
Proof.
  unfold plainToken. rewrite !andb_true_iff, !negb_true_iff, !orb_false_iff.
  intros [[[H1 H2] H3] H4] [P1 P2] [B1 B2].
  rewrite !hasChar_appendChar, H1, H2, H3, H4, P1, P2, B1, B2. auto.
Qed.

Lemma flushToken_unquoted st : unquotedInvariant st -> unquotedInvariant (flushToken st).
Proof.
  intros (Hq & Htok & Hcur). rewrite flushToken_spec.
  split; [exact Hq|]. cbn [tkTokens tkCurrentToken]. split.
  - apply Forall_app. split; [exact Htok|].
    destruct (truthy (trim (tkCurrentToken st))); [|constructor].
    constructor; [|constructor]. right; right. apply plainToken_trim, Hcur.
  - destruct (truthy (trim (tkCurrentToken st))); [reflexivity|exact Hcur].
Qed.

Lemma tokenizeChar_unquoted st c :
  c <> dquote -> unquotedInvariant st -> unquotedInvariant (tokenizeChar st c).
Proof.
  intros Hc Hinv. pose proof Hinv as (Hq & Htok & Hcur).
  unfold tokenizeChar. apply Ascii.eqb_neq in Hc. rewrite Hc, Hq.
  destruct (Ascii.eqb c lparen || Ascii.eqb c rparen) eqn:Hp.
  - destruct (flushToken_unquoted st Hinv) as (Fq & Ftok & Fcur).
    split; [exact Fq|]. unfold pushToken. cbn [tkTokens tkCurrentToken].
    split; [|exact Fcur].
    apply Forall_app. split; [exact Ftok|].
    constructor; [|constructor].
    apply orb_true_iff in Hp. destruct Hp as [Hp|Hp]; apply Ascii.eqb_eq in Hp; subst c.
    + left. reflexivity.
    + right; left. reflexivity.
  - destruct (Ascii.eqb c space || Ascii.eqb c tab) eqn:Hb.
    + apply flushToken_unquoted, Hinv.
    + split; [reflexivity|]. cbn [tkTokens tkCurrentToken]. split; [exact Htok|].
      apply plainToken_appendChar; assumption.
Qed.

Lemma tokenizeLoop_unquoted s : forall st,
  hasChar dquote s = false -> unquotedInvariant st -> unquotedInvariant (tokenizeLoop st s).
Proof.
  induction s as [|c s IH]; intros st Hs Hinv; [exact Hinv|].
  cbn [hasChar] in Hs. apply orb_false_iff in Hs. destruct Hs as [Hc Hs].
  cbn [tokenizeLoop]. apply IH; [exact Hs|].
  apply tokenizeChar_unquoted; [apply Ascii.eqb_neq, Hc|exact Hinv].
Qed.

(** X3.  On an input without quote characters every token is a single
    parenthesis or holds no space, tab or parenthesis: outside quotes a
    parenthesis is always a token of its own, also when it touches a word. *)
Theorem tokenize_unquoted_tokens s t :
  hasChar dquote s = false -> In t (tokenize s) ->
  t = "(" \/ t = ")" \/ plainToken t = true.
Proof.
  intros Hs Hin.
  assert (H : unquotedInvariant (flushToken (tokenizeLoop tokenizeInit s))).
  { apply flushToken_unquoted, tokenizeLoop_unquoted; [exact Hs|].
    split; [reflexivity|]. split; [constructor|reflexivity]. }
  destruct H as (_ & H & _). rewrite Forall_forall in H. apply (H t Hin).
Qed.

Lemma tokenize_unquoted_tokens_witness :
  "b" = "(" \/ "b" = ")" \/ plainToken "b" = true.
Proof.
  apply (tokenize_unquoted_tokens "a(b)c" "b"); [reflexivity|].
  vm_compute. right; right; left. reflexivity.
Defined.

(** ** Blanks around the expression *)

Lemma tokenizeLoop_app s1 s2 : forall st,
  tokenizeLoop st (s1 ++ s2)%string = tokenizeLoop (tokenizeLoop st s1) s2.
Proof.
  induction s1 as [|c s1 IH]; intros st; [reflexivity|].
  cbn [append tokenizeLoop]. apply IH.
Qed.

Lemma isBlank_spec c : isBlank c = true -> c = space \/ c = tab.
Proof.
  unfold isBlank. rewrite orb_true_iff, !Ascii.eqb_eq. tauto.
Qed.

Lemma isBlank_isWhiteSpace c : isBlank c = true -> isWhiteSpace c = true.
Proof. intros H. apply isBlank_spec in H. destruct H as [-> | ->]; reflexivity. Qed.

Lemma tokenizeLoop_leading_blanks pad :
  allChars isBlank pad = true -> tokenizeLoop tokenizeInit pad = tokenizeInit.
Proof.
  induction pad as [|c pad IH]; [reflexivity|].
  cbn [allChars]. rewrite andb_true_iff. intros [Hc Hpad].
  cbn [tokenizeLoop]. rewrite tokenizeChar_blank; [|reflexivity|apply isBlank_spec, Hc].
  rewrite flushToken_blank by reflexivity. apply IH, Hpad.
Qed.

Lemma trimEnd_appendChar s c :
  isWhiteSpace c = true -> trimEnd (appendChar s c) = trimEnd s.
Proof.
  intros Hc. unfold appendChar. induction s as [|d s IH].
  - cbn. rewrite Hc. reflexivity.
  - cbn [append]. rewrite !trimEnd_cons, IH. reflexivity.
Qed.

Lemma trimStart_appendChar s c :
  allChars isWhiteSpace s = false ->
  trimStart (appendChar s c) = appendChar (trimStart s) c.
Proof.
  unfold appendChar. induction s as [|d s IH]; [discriminate|].
  cbn [allChars append trimStart]. destruct (isWhiteSpace d); [exact IH|reflexivity].
Qed.

Lemma trim_appendChar s c : isWhiteSpace c = true -> trim (appendChar s c) = trim s.
Proof.
  intros Hc. destruct (allChars isWhiteSpace s) eqn:Hs.
  - assert (H : allChars isWhiteSpace (appendChar s c) = true)
      by (rewrite allChars_appendChar, Hs, Hc; reflexivity).
    apply trim_empty in H, Hs. congruence.
  - unfold trim. rewrite trimStart_appendChar by exact Hs.
    apply trimEnd_appendChar, Hc.
Qed.

Lemma flushToken_idempotent st : flushToken (flushToken st) = flushToken st.
Proof.
  unfold flushToken. destruct (truthy (trim (tkCurrentToken st))) eqn:E.
  - reflexivity.
  - rewrite E. reflexivity.
Qed.

Lemma tokenizeLoop_trailing_blanks pad : forall st,
  allChars isBlank pad = true ->
  tkTokens (flushToken (tokenizeLoop st pad)) = tkTokens (flushToken st).
Proof.
  induction pad as [|c pad IH]; intros st Hpad; [reflexivity|].
  cbn [allChars] in Hpad. apply andb_true_iff in Hpad. destruct Hpad as [Hc Hpad].
  cbn [tokenizeLoop]. rewrite IH by exact Hpad.
  destruct (tkInQuotes st) eqn:Hq.
  - rewrite tokenizeChar_inQuotes;
      [|exact Hq|intros ->; apply isBlank_spec in Hc; destruct Hc; discriminate].
    rewrite !flushToken_spec. cbn [tkTokens tkCurrentToken].
    rewrite trim_appendChar by apply isBlank_isWhiteSpace, Hc. reflexivity.
  - rewrite tokenizeChar_blank; [|exact Hq|apply isBlank_spec, Hc].
    rewrite flushToken_idempotent. reflexivity.
Qed.

Lemma tokenize_padded pad1 s pad2 :
  allChars isBlank pad1 = true -> allChars isBlank pad2 = true ->
  tokenize (pad1 ++ s ++ pad2)%string = tokenize s.
Proof.
  intros H1 H2. unfold tokenize.
  rewrite !tokenizeLoop_app, (tokenizeLoop_leading_blanks pad1 H1).
  apply tokenizeLoop_trailing_blanks, H2.
Qed.

Lemma allChars_app p s1 s2 :
  allChars p (s1 ++ s2)%string = allChars p s1 && allChars p s2.
Proof.
  induction s1 as [|c s1 IH]; [reflexivity|].
  cbn [append allChars]. rewrite IH, andb_assoc. reflexivity.
Qed.

Lemma allChars_blank_white pad :
  allChars isBlank pad = true -> allChars isWhiteSpace pad = true.
Proof.
  induction pad as [|c pad IH]; [reflexivity|].
  cbn [allChars]. rewrite !andb_true_iff. intros [Hc Hpad].
  split; [apply isBlank_isWhiteSpace, Hc|apply IH, Hpad].
Qed.

(** X4.  Spaces and tabs before and after an expression change nothing:
    the tokens are the same, and so are the validity, the message and, for
    a valid expression, the tree of the parse. *)
Theorem parse_padded this pad1 raw pad2 :
  allChars isBlank pad1 = true -> allChars isBlank pad2 = true ->
  tokenize (pad1 ++ raw ++ pad2)%string = tokenize raw /\
  exists r r' this1 this2,
    parse this (pad1 ++ raw ++ pad2)%string = Some (r', this1) /\
    parse this raw = Some (r, this2) /\
    isValid r' = isValid r /\
    errorMessage r' = errorMessage r /\
    (isValid r = true -> expression r' = expression r).
Proof.
  intros H1 H2. pose proof (tokenize_padded pad1 raw pad2 H1 H2) as Htok.
  split; [exact Htok|].
  rewrite !parse_unfold, Htok, !allChars_app.
  rewrite (allChars_blank_white pad1 H1), (allChars_blank_white pad2 H2), andb_true_r.
  cbn [andb].
  destruct (allChars isWhiteSpace raw).
  - do 4 eexists. repeat split; reflexivity.
  - pose proof (tryParse_not_OutOfFuel (tokenize raw)) as Hne.
    destruct (tryParse (tokenize raw) (enoughFuel (tokenize raw))) as [e j|m j|];
      [| |congruence].
    + do 4 eexists. repeat split; reflexivity.
    + do 4 eexists. split; [reflexivity|]. split; [reflexivity|].
      cbn. split; [reflexivity|]. split; [reflexivity|discriminate].
Qed.

Lemma parse_padded_witness :
  tokenize "  Python   AND   Django  " = tokenize "Python   AND   Django".
Proof.
  apply (parse_padded newParser "  " "Python   AND   Django" "  "); reflexivity.
Defined.

(** ** The spelling of the operators *)

Lemma toUpperChar_idempotent c : toUpperChar (toUpperChar c) = toUpperChar c.
Proof. destruct c as [[] [] [] [] [] [] [] []]; reflexivity. Qed.

Lemma toUpperCase_idempotent s : toUpperCase (toUpperCase s) = toUpperCase s.
Proof.
  induction s as [|c s IH]; [reflexivity|].
  cbn [toUpperCase mapString]. fold (toUpperCase s).
  fold (toUpperCase (toUpperCase s)). rewrite IH, toUpperChar_idempotent. reflexivity.
Qed.

Lemma isKeyword_upper t :
  isKeyword t = true ->
  toUpperCase t = "AND" \/ toUpperCase t = "OR" \/ toUpperCase t = "NOT".
Proof.
  unfold isKeyword, isOperator. rewrite !orb_true_iff, !String.eqb_eq. tauto.
Qed.

Lemma isOperator_canonicalToken t op :
  isOperator (Some (canonicalToken t)) op = isOperator (Some t) op.
Proof.
  unfold canonicalToken. destruct (isKeyword t); [|reflexivity].
  cbn [isOperator]. rewrite toUpperCase_idempotent. reflexivity.
Qed.

Lemma tokenIs_canonicalToken t s :
  isKeyword s = false -> toUpperCase s = s ->
  tokenIs (Some (canonicalToken t)) s = tokenIs (Some t) s.
Proof.
  intros Hs Hup. unfold canonicalToken. destruct (isKeyword t) eqn:Hk; [|reflexivity].
  cbn [tokenIs].
  assert (H1 : (t =? s)%string = false).
  { apply String.eqb_neq. intros ->. congruence. }
  assert (H2 : (toUpperCase t =? s)%string = false).
  { apply String.eqb_neq. intros E.
    assert (Hk' : isKeyword s = true).
    { unfold isKeyword, isOperator in *. rewrite Hup, <- E. exact Hk. }
    congruence. }
  rewrite H1, H2. reflexivity.
Qed.

Lemma truthy_canonicalToken t : truthy (canonicalToken t) = truthy t.
Proof.
  unfold canonicalToken. destruct (isKeyword t); [|reflexivity].
  destruct t; reflexivity.
Qed.

Section KeywordCase.

Variable tokens : list string.

Lemma currentToken_canonical i :
  currentToken (map canonicalToken tokens) i
  = option_map canonicalToken (currentToken tokens i).
Proof.
  unfold currentToken. rewrite length_map, nth_error_map.
  destruct (i <? List.length tokens); reflexivity.
Qed.

Lemma isOperator_canonical i op :
  isOperator (currentToken (map canonicalToken tokens) i) op
  = isOperator (currentToken tokens i) op.
Proof.
  rewrite currentToken_canonical. destruct (currentToken tokens i) as [t|]; [|reflexivity].
  apply isOperator_canonicalToken.
Qed.

Lemma tokenIs_canonical i s :
  isKeyword s = false -> toUpperCase s = s ->
  tokenIs (currentToken (map canonicalToken tokens) i) s
  = tokenIs (currentToken tokens i) s.
Proof.
  intros Hs Hup. rewrite currentToken_canonical.
  destruct (currentToken tokens i) as [t|]; [|reflexivity].
  apply tokenIs_canonicalToken; assumption.
Qed.

Lemma sameOutcome_Returns e j r' :
  sameOutcome tokens (Returns e j) r' -> r' = Returns e j.
Proof. destruct r' as [e' j'|m j'|]; cbn; [intros [-> ->]; reflexivity|tauto|tauto]. Qed.

Lemma sameOutcome_Throws m j r' :
  sameOutcome tokens (Throws m j) r' ->
  exists m', r' = Throws m' j /\ sameOutcome tokens (Throws m j) (Throws m' j).
Proof.
  destruct r' as [e' j'|m' j'|]; cbn; [tauto| |tauto].
  intros [<- H]. exists m'. auto.
Qed.

Lemma sameOutcome_same_message m j :
  sameOutcome tokens (Throws m j) (Throws m j).
Proof. split; [reflexivity|left; reflexivity]. Qed.

Ltac canonical_tests :=
  repeat first
    [ rewrite isOperator_canonical
    | rewrite (tokenIs_canonical _ "(" eq_refl eq_refl)
    | rewrite (tokenIs_canonical _ ")" eq_refl eq_refl) ];
  try assumption.

(** A run on the tokens is a run on the tokens with the keywords in
    capitals, up to the text of the error message. *)
Lemma Run_canonical c r :
  Run tokens c r -> primaryEntry tokens c ->
  exists r', Run (map canonicalToken tokens) c r' /\ sameOutcome tokens r r'.
Proof.
  induction 1 as
    [ i m j H IH | i l j r H1 IH1 H2 IH2 | l i Hop
    | l i m j Hop H IH | l i rh j r Hop H1 IH1 H2 IH2
    | i m j H IH | i l j r H1 IH1 H2 IH2 | l i Hop
    | l i m j Hop H IH | l i rh j r Hop H1 IH1 H2 IH2
    | i e j Hop H IH | i m j Hop H IH | i r Hop H IH
    | i e j Hopen H IH Hclose | i e j Hopen H IH Hclose | i m j Hopen H IH
    | i Hopen Hclose | i Hnone | i t Hopen Hclose Ht Htr
    | i t Hopen Hclose Ht Htr Hop | i t Hopen Hclose Ht Htr Hop ];
    intros Hentry; cbn [primaryEntry] in *.
  - destruct (IH I) as (r' & HR & Hs). apply sameOutcome_Throws in Hs.
    destruct Hs as (m' & -> & Hs). eexists. split; [apply RunOr_throw, HR|exact Hs].
  - destruct (IH1 I) as (r1 & HR1 & Hs1). apply sameOutcome_Returns in Hs1. subst r1.
    destruct (IH2 I) as (r' & HR2 & Hs2).
    exists r'. split; [eapply RunOr_loop; eassumption|exact Hs2].
  - eexists. split; [apply RunOrLoop_done; canonical_tests|split; reflexivity].
  - destruct (IH I) as (r' & HR & Hs). apply sameOutcome_Throws in Hs.
    destruct Hs as (m' & -> & Hs).
    eexists. split; [apply RunOrLoop_throw; [canonical_tests|exact HR]|exact Hs].
  - destruct (IH1 I) as (r1 & HR1 & Hs1). apply sameOutcome_Returns in Hs1. subst r1.
    destruct (IH2 I) as (r' & HR2 & Hs2).
    exists r'. split; [eapply RunOrLoop_more; [canonical_tests|eassumption..]|exact Hs2].
  - destruct (IH I) as (r' & HR & Hs). apply sameOutcome_Throws in Hs.
    destruct Hs as (m' & -> & Hs). eexists. split; [apply RunAnd_throw, HR|exact Hs].
  - destruct (IH1 I) as (r1 & HR1 & Hs1). apply sameOutcome_Returns in Hs1. subst r1.
    destruct (IH2 I) as (r' & HR2 & Hs2).
    exists r'. split; [eapply RunAnd_loop; eassumption|exact Hs2].
  - eexists. split; [apply RunAndLoop_done; canonical_tests|split; reflexivity].
  - destruct (IH I) as (r' & HR & Hs). apply sameOutcome_Throws in Hs.
    destruct Hs as (m' & -> & Hs).
    eexists. split; [apply RunAndLoop_throw; [canonical_tests|exact HR]|exact Hs].
  - destruct (IH1 I) as (r1 & HR1 & Hs1). apply sameOutcome_Returns in Hs1. subst r1.
    destruct (IH2 I) as (r' & HR2 & Hs2).
    exists r'. split; [eapply RunAndLoop_more; [canonical_tests|eassumption..]|exact Hs2].
  - destruct (IH I) as (r' & HR & Hs). apply sameOutcome_Returns in Hs. subst r'.
    eexists. split; [apply RunNot_not; [canonical_tests|exact HR]|split; reflexivity].
  - destruct (IH I) as (r' & HR & Hs). apply sameOutcome_Throws in Hs.
    destruct Hs as (m' & -> & Hs).
    eexists. split; [apply RunNot_throw; [canonical_tests|exact HR]|exact Hs].
  - destruct (IH Hop) as (r' & HR & Hs).
    exists r'. split; [apply RunNot_primary; [canonical_tests|exact HR]|exact Hs].
  - destruct (IH I) as (r' & HR & Hs). apply sameOutcome_Returns in Hs. subst r'.
    eexists. split; [eapply RunPrimary_group; [canonical_tests|exact HR|canonical_tests]|].
    split; reflexivity.
  - destruct (IH I) as (r' & HR & Hs). apply sameOutcome_Returns in Hs. subst r'.
    eexists. split; [eapply RunPrimary_missing; [canonical_tests|exact HR|canonical_tests]|].
    apply sameOutcome_same_message.
  - destruct (IH I) as (r' & HR & Hs). apply sameOutcome_Throws in Hs.
    destruct Hs as (m' & -> & Hs).
    eexists. split; [apply RunPrimary_inner; [canonical_tests|exact HR]|exact Hs].
  - eexists. split; [apply RunPrimary_close; canonical_tests|].
    apply sameOutcome_same_message.
  - exists (Throws "Unexpected end of expression" i).
    split; [|apply sameOutcome_same_message].
    apply RunPrimary_end. rewrite currentToken_canonical, Hnone. reflexivity.
  - exists (Throws "Unexpected end of expression" i).
    split; [|apply sameOutcome_same_message].
    eapply (RunPrimary_empty _ i (canonicalToken t)); canonical_tests.
    + rewrite currentToken_canonical, Ht. reflexivity.
    + rewrite truthy_canonicalToken. exact Htr.
  - exists (Throws ("Unexpected operator: " ++ canonicalToken t)%string i).
    split; [|split; [reflexivity|right; exists t; auto]].
    eapply (RunPrimary_operator _ i (canonicalToken t)); canonical_tests.
    + rewrite currentToken_canonical, Ht. reflexivity.
    + rewrite truthy_canonicalToken. exact Htr.
  - assert (Hk : canonicalToken t = t).
    { unfold canonicalToken, isKeyword. rewrite Ht in Hop, Hentry.
      rewrite Hop, Hentry. reflexivity. }
    exists (Returns (TermExpression t) (S i)). split; [|split; reflexivity].
    eapply RunPrimary_term; canonical_tests.
    rewrite currentToken_canonical, Ht. cbn. rewrite Hk. reflexivity.
Qed.

End KeywordCase.

(** X5.  The operators may be written in any letter case: putting the
    keyword tokens in capitals changes neither whether the parse succeeds,
    nor its tree, nor the index at which an error is raised, nor the error
    message, with one exception: the message of an unexpected operator
    quotes the token at that index as typed, so there the two messages are
    the same prefix followed by the token as typed and by the token in
    capitals. *)
Theorem tryParse_keyword_case tokens :
  sameOutcome tokens (tryParse tokens (enoughFuel tokens))
              (tryParse (map canonicalToken tokens)
                        (enoughFuel (map canonicalToken tokens))).
Proof.
  assert (Hfuel : enoughFuel (map canonicalToken tokens) = enoughFuel tokens)
    by (unfold enoughFuel; rewrite length_map; reflexivity).
  rewrite Hfuel. unfold tryParse.
  pose proof (parseOrExpression_enough tokens (enoughFuel tokens) (le_n _)) as Hne.
  assert (HR : Run tokens (CallOr 0) (parseOrExpression tokens (enoughFuel tokens) 0))
    by (apply (exec_Run tokens (enoughFuel tokens)); [reflexivity|exact Hne]).
  destruct (Run_canonical tokens _ _ HR I) as (r' & HR' & Hs).
  assert (E : exec (map canonicalToken tokens) (enoughFuel tokens) (CallOr 0) = r').
  { apply Run_exec_enough; [exact HR'|cbn; lia|].
    rewrite callDepth_CallOr, Hfuel. lia. }
  cbn [exec] in E. rewrite E, length_map.
  destruct (parseOrExpression tokens (enoughFuel tokens) 0) as [e j|m j|].
  - apply sameOutcome_Returns in Hs. subst r'.
    destruct (j <? List.length tokens); cbn; auto.
  - apply sameOutcome_Throws in Hs. destruct Hs as (m' & -> & Hs). exact Hs.
  - contradiction.
Qed.

(** ** The filter predicate of the job list *)

Lemma parseCall_parse this raw : parse this raw = Some (parseCall this raw).
Proof.
  unfold parseCall. destruct (parse this raw) as [p|] eqn:E; [reflexivity|].
  rewrite parse_unfold in E.
  destruct (allChars isWhiteSpace raw); [discriminate E|].
  pose proof (tryParse_not_OutOfFuel (tokenize raw)) as Hne.
  destruct (tryParse (tokenize raw) (enoughFuel (tokenize raw)));
    [discriminate E|discriminate E|congruence].
Qed.

Lemma parseCall_unfold this raw :
  parseCall this raw =
  if allChars isWhiteSpace raw then (mkParseResult None true None, this)
  else
    match tryParse (tokenize raw) (enoughFuel (tokenize raw)) with
    | Returns result idx =>
        (mkParseResult (Some result) true None, mkParser (tokenize raw) idx)
    | Throws message idx =>
        (mkParseResult (Some (TermExpression raw)) false (Some message),
         mkParser (tokenize raw) idx)
    | OutOfFuel => parseCall this raw
    end.
Proof.
  pose proof (parseCall_parse this raw) as H. rewrite parse_unfold in H.
  destruct (allChars isWhiteSpace raw); [congruence|].
  destruct (tryParse (tokenize raw) (enoughFuel (tokenize raw))); congruence.
Qed.

(** The result of a call does not depend on the parser object. *)
Lemma parseCall_result this1 this2 raw :
  fst (parseCall this1 raw) = fst (parseCall this2 raw).
Proof.
  rewrite (parseCall_unfold this1), (parseCall_unfold this2).
  destruct (allChars isWhiteSpace raw); [reflexivity|].
  pose proof (tryParse_not_OutOfFuel (tokenize raw)) as Hne.
  destruct (tryParse (tokenize raw) (enoughFuel (tokenize raw)));
    [reflexivity|reflexivity|congruence].
Qed.

Lemma techStackMatch_fst this job filters :
  fst (techStackMatch this job filters) =
  if truthy (techStack filters) then
    match expression (fst (parseCall this (techStack filters))) with
    | Some e => evaluate e (techStackOf job)
    | None => true
    end
  else true.
Proof.
  unfold techStackMatch, techStackOf. destruct (truthy (techStack filters)); [|reflexivity].
  destruct (parseCall this (techStack filters)) as [r this'].
  cbn [fst]. destruct (expression r); reflexivity.
Qed.

Lemma techStackMatch_parser this1 this2 job filters :
  fst (techStackMatch this1 job filters) = fst (techStackMatch this2 job filters).
Proof.
  rewrite !techStackMatch_fst, (parseCall_result this1 this2). reflexivity.
Qed.

Lemma filterPredicate_fst this job filters :
  fst (filterPredicate this job filters) =
  companyMatch job filters && jobTitleMatch job filters && locationMatch job filters &&
  remotePolicyMatch job filters && fst (techStackMatch this job filters) &&
  visaSponsorshipMatch job filters.
Proof.
  unfold filterPredicate. destruct (techStackMatch this job filters). reflexivity.
Qed.

(** X6.  A tech-stack filter that is empty or only white space (what
    [trim] removes, the no-break space included) puts no constraint on a
    job and leaves the parser object alone: the predicate is the
    conjunction of the five other filters.  With every filter empty each
    job matches. *)
Theorem filterPredicate_blank_techStack this job filters :
  allChars isWhiteSpace (techStack filters) = true ->
  filterPredicate this job filters
  = (companyMatch job filters && jobTitleMatch job filters && locationMatch job filters &&
     remotePolicyMatch job filters && visaSponsorshipMatch job filters, this) /\
  filterPredicate this job
    (mkFilters EmptyString EmptyString EmptyString EmptyString EmptyString EmptyString)
  = (true, this).
Proof.
  intros Hws. split; [|reflexivity].
  unfold filterPredicate, techStackMatch.
  destruct (truthy (techStack filters)).
  - rewrite parseCall_unfold, Hws. cbn [expression]. rewrite andb_true_r. reflexivity.
  - rewrite andb_true_r. reflexivity.
Qed.

Lemma filterPredicate_blank_techStack_witness :
  filterPredicate (mkParser ["x"] 1)
    (mkJob "1" (Some "Acme") (Some [Some "Engineer"]) None None None VisaMissing)
    (mkFilters "acm" EmptyString EmptyString EmptyString "   " EmptyString)
  = (true, mkParser ["x"] 1) /\
  filterPredicate (mkParser ["x"] 1)
    (mkJob "1" (Some "Acme") (Some [Some "Engineer"]) None None None VisaMissing)
    (mkFilters "acm" EmptyString EmptyString EmptyString (String "160" " ") EmptyString)
  = (true, mkParser ["x"] 1).
Proof.
  split.
  - apply (filterPredicate_blank_techStack (mkParser ["x"] 1)
             (mkJob "1" (Some "Acme") (Some [Some "Engineer"]) None None None VisaMissing)
             (mkFilters "acm" EmptyString EmptyString EmptyString "   " EmptyString)).
    reflexivity.
  - apply (filterPredicate_blank_techStack (mkParser ["x"] 1)
             (mkJob "1" (Some "Acme") (Some [Some "Engineer"]) None None None VisaMissing)
             (mkFilters "acm" EmptyString EmptyString EmptyString (String "160" " ")
                EmptyString)).
    reflexivity.
Defined.

Lemma fieldWeaker_cases a b : fieldWeaker a b = true -> a = EmptyString \/ a = b.
Proof.
  unfold fieldWeaker. rewrite orb_true_iff, negb_true_iff, truthy_false, String.eqb_eq.
  tauto.
Qed.

(** X7.  Clearing filters never loses a match: a job that passes a set of
    filters passes every set obtained by emptying some of them, whatever
    state the parser object is in. *)
Theorem filterPredicate_weaker this this' job filters filters' :
  weakerFilters filters' filters = true ->
  fst (filterPredicate this job filters) = true ->
  fst (filterPredicate this' job filters') = true.
Proof.
  unfold weakerFilters. rewrite !andb_true_iff.
  intros [[[[[Hc Hj] Hl] Hr] Ht] Hv].
  apply fieldWeaker_cases in Hc, Hj, Hl, Hr, Ht, Hv.
  rewrite !filterPredicate_fst, !andb_true_iff.
  intros [[[[[Mc Mj] Ml] Mr] Mt] Mv].
  repeat split.
  - unfold companyMatch in *. destruct Hc as [-> | ->]; [reflexivity|exact Mc].
  - unfold jobTitleMatch in *. destruct Hj as [-> | ->]; [reflexivity|exact Mj].
  - unfold locationMatch in *. destruct Hl as [-> | ->]; [reflexivity|exact Ml].
  - unfold remotePolicyMatch in *. destruct Hr as [-> | ->]; [reflexivity|exact Mr].
  - rewrite techStackMatch_fst in *. destruct Ht as [-> | ->]; [reflexivity|].
    rewrite (parseCall_result this' this). exact Mt.
  - unfold visaSponsorshipMatch in *. destruct Hv as [-> | ->]; [reflexivity|exact Mv].
Qed.

Lemma filterPredicate_weaker_witness :
  fst (filterPredicate newParser
         (mkJob "1" (Some "Acme") (Some [Some "Engineer"]) None (Some "Remote")
            (Some [Some "Python"; Some "Django"]) VisaMissing)
         (mkFilters "acme" EmptyString EmptyString EmptyString "Python AND Django"
            EmptyString))
  = true.
Proof.
  apply (filterPredicate_weaker newParser newParser
           (mkJob "1" (Some "Acme") (Some [Some "Engineer"]) None (Some "Remote")
              (Some [Some "Python"; Some "Django"]) VisaMissing)
           (mkFilters "acme" "engineer" EmptyString "Remote" "Python AND Django"
              "Not specified")
           (mkFilters "acme" EmptyString EmptyString EmptyString "Python AND Django"
              EmptyString)); reflexivity.
Defined.

(** X8.  When the tech-stack expression is not valid, the predicate falls
    back to an exact search: the tech-stack part holds exactly for the jobs
    with a tag whose normal form (lower-cased and trimmed as the language
    does, the capital letters of Latin-1 and the no-break space included)
    is that of the whole text typed. *)
Theorem techStackMatch_invalid this job filters :
  isValid (fst (parseCall this (techStack filters))) = false ->
  (fst (techStackMatch this job filters) = true <->
   exists tag, In (Some tag) (techStackOf job) /\
               normalize tag = normalize (techStack filters)).
Proof.
  intros Hinv. rewrite techStackMatch_fst.
  assert (Hr : fst (parseCall this (techStack filters))
               = mkParseResult (Some (TermExpression (techStack filters))) false
                   (errorMessage (fst (parseCall this (techStack filters))))).
  { rewrite parseCall_unfold in *.
    destruct (allChars isWhiteSpace (techStack filters)); [discriminate Hinv|].
    destruct (tryParse (tokenize (techStack filters))
                (enoughFuel (tokenize (techStack filters)))) eqn:E.
    - discriminate Hinv.
    - reflexivity.
    - exfalso. apply (tryParse_not_OutOfFuel _ E). }
  assert (Htr : truthy (techStack filters) = true).
  { destruct (techStack filters) eqn:E; [|reflexivity].
    rewrite parseCall_unfold in Hinv. discriminate Hinv. }
  rewrite Htr, Hr. cbn [expression].
  rewrite evaluate_term_iff. clear.
  induction (techStackOf job) as [|[t|] rest IH]; cbn [tagForms In].
  - split; [tauto|intros [tag [[] _]]].
  - rewrite IH. split.
    + intros [H|[tag [Hin Hn]]]; [exists t; auto|exists tag; auto].
    + intros [tag [[Hin|Hin] Hn]]; [injection Hin as ->; auto|right; eauto].
  - rewrite IH. split.
    + intros [tag [Hin Hn]]. exists tag. auto.
    + intros [tag [[Hin|Hin] Hn]]; [discriminate Hin|eauto].
Qed.

Lemma techStackMatch_invalid_witness :
  fst (techStackMatch newParser
         (mkJob "1" None None None None (Some [Some "python and"; None]) VisaMissing)
         (mkFilters EmptyString EmptyString EmptyString EmptyString "Python AND"
            EmptyString))
  = true.
Proof.
  apply (techStackMatch_invalid newParser
           (mkJob "1" None None None None (Some [Some "python and"; None]) VisaMissing)
           (mkFilters EmptyString EmptyString EmptyString EmptyString "Python AND"
              EmptyString)); [reflexivity|].
  exists "python and". split; [left; reflexivity|reflexivity].
Defined.

(** ** The range label and the page sizes *)

(** X9.  For a page within the data and a page size below the length, the
    label reads "a - b of n" with a the first and b the last item of the
    page counted from 1: a <= b <= n, at most pageSize items, and b = n on
    the last page. *)
Theorem getCustomRangeLabel_range page pageSize length :
  0 < pageSize -> pageSize < length -> page * pageSize < length ->
  getCustomRangeLabel page pageSize length
  = (numberToString (page * pageSize + 1) ++ " - " ++
     numberToString (rangeEndIndex page pageSize length) ++ " of " ++
     numberToString length)%string /\
  page * pageSize + 1 <= rangeEndIndex page pageSize length <= length /\
  rangeEndIndex page pageSize length - page * pageSize <= pageSize /\
  (length <= (page + 1) * pageSize -> rangeEndIndex page pageSize length = length).
Proof.
  intros Hps Hlen Hpage. unfold getCustomRangeLabel, rangeEndIndex, rangeStartIndex.
  assert (H1 : (length =? 0) || (pageSize =? 0) = false).
  { apply orb_false_iff. split; apply Nat.eqb_neq; lia. }
  assert (H2 : (length <=? pageSize) = false) by (apply Nat.leb_gt; lia).
  assert (H3 : (page * pageSize <? length) = true) by (apply Nat.ltb_lt; lia).
  rewrite H1, H2, H3. split; [reflexivity|]. lia.
Qed.

Lemma getCustomRangeLabel_range_witness :
  getCustomRangeLabel 2 10 25 = "21 - 25 of 25".
Proof.
  destruct (getCustomRangeLabel_range 2 10 25) as [H _]; [lia|lia|cbn; lia|].
  exact H.
Defined.

(** X10.  Whenever there is data, the page-size options are the five base
    sizes followed by the data length, also when that length already is one
    of the base sizes; without data they are the base sizes.  The length
    that counts is the filtered one unless it is missing or zero. *)
Theorem updatePageSizeOptions_spec filteredDataLength allDataLength :
  updatePageSizeOptions filteredDataLength allDataLength
  = match orNumber filteredDataLength (orNumber allDataLength 0) with
    | O => baseOptions
    | S n => baseOptions ++ [S n]
    end.
Proof.
  unfold updatePageSizeOptions.
  destruct (orNumber filteredDataLength (orNumber allDataLength 0)) as [|n]; [reflexivity|].
  change (0 <? S n) with true. cbv iota.
  destruct (Nat.leb_spec (S n) (last baseOptions 0)) as [Hle|Hgt].
  - destruct (negb (existsb (Nat.eqb (S n)) baseOptions) && (last baseOptions 0 <? S n));
      reflexivity.
  - assert (Hex : existsb (Nat.eqb (S n)) baseOptions = false).
    { cbn in Hgt. cbn [existsb baseOptions]. rewrite !orb_false_iff.
      repeat split; try (apply Nat.eqb_neq; lia). }
    assert (Hlt : (last baseOptions 0 <? S n) = true) by (apply Nat.ltb_lt; exact Hgt).
    rewrite Hex, Hlt. reflexivity.
Qed.

(** ** The comparison service *)

Lemma includesId_In ids jobId : includesId ids jobId = true <-> In jobId ids.
Proof.
  unfold includesId. rewrite existsb_exists. split.
  - intros (x & Hx & E). apply String.eqb_eq in E. subst x. exact Hx.
  - intros H. exists jobId. split; [exact H|apply String.eqb_refl].
Qed.

Lemma includesId_app ids1 ids2 jobId :
  includesId (ids1 ++ ids2) jobId = includesId ids1 jobId || includesId ids2 jobId.
Proof. unfold includesId. apply existsb_app. Qed.

Lemma jobIds_addJob svc job :
  _jobIds (addJob svc job)
  = if includesId (_jobIds svc) (id job) then _jobIds svc else _jobIds svc ++ [id job].
Proof. unfold addJob. destruct (includesId (_jobIds svc) (id job)); reflexivity. Qed.

Lemma jobIds_removeJob svc jobId :
  _jobIds (removeJob svc jobId)
  = filter (fun x => negb (x =? jobId)%string) (_jobIds svc).
Proof.
  unfold removeJob.
  destruct (List.length (filter (fun x => negb (x =? jobId)%string) (_jobIds svc)) =? 0);
    reflexivity.
Qed.

(** X11.  Adding and removing keep the compared ids free of repetitions:
    a job is never listed twice. *)
Theorem comparison_ids_NoDup svc job jobId :
  NoDup (_jobIds svc) ->
  NoDup (_jobIds (addJob svc job)) /\ NoDup (_jobIds (removeJob svc jobId)).
Proof.
  intros Hnd. split.
  - rewrite jobIds_addJob. destruct (includesId (_jobIds svc) (id job)) eqn:E; [exact Hnd|].
    apply NoDup_app; [exact Hnd|constructor; [intros []|constructor]|].
    intros x Hx [<-|[]].
    apply includesId_In in Hx. congruence.
  - rewrite jobIds_removeJob. apply NoDup_filter, Hnd.
Qed.

Lemma comparison_ids_NoDup_witness :
  NoDup (_jobIds (addJob (mkComparisonService ["1"; "2"] false (mkStorage true None))
                    (mkJob "2" None None None None None VisaMissing))) /\
  NoDup (_jobIds (removeJob (mkComparisonService ["1"; "2"] false (mkStorage true None))
                    "1")).
Proof.
  apply (comparison_ids_NoDup (mkComparisonService ["1"; "2"] false (mkStorage true None))
           (mkJob "2" None None None None None VisaMissing) "1").
  cbn [_jobIds]. constructor; [intros [H|[]]; discriminate H|].
  constructor; [intros []|constructor].
Defined.

(** X12.  After [addJob] exactly the old ids and the id of the job are in
    the comparison; after [removeJob] exactly the old ids other than the
    one removed.  So a job added is in, a job removed is out, and no other
    id is touched. *)
Theorem isInComparison_addJob_removeJob svc job jobId x :
  isInComparison (addJob svc job) x
  = (isInComparison svc x || (x =? id job)%string) /\
  isInComparison (removeJob svc jobId) x
  = (isInComparison svc x && negb (x =? jobId)%string).
Proof.
  unfold isInComparison. split.
  - rewrite jobIds_addJob. destruct (includesId (_jobIds svc) (id job)) eqn:E.
    + destruct (String.eqb_spec x (id job)) as [->|Hne].
      * rewrite E. reflexivity.
      * rewrite orb_false_r. reflexivity.
    + rewrite includesId_app. cbn [includesId existsb].
      rewrite orb_false_r, String.eqb_sym. reflexivity.
  - rewrite jobIds_removeJob. generalize (_jobIds svc) as ids.
    induction ids as [|y ids IH]; [reflexivity|].
    cbn [filter]. destruct (String.eqb_spec y jobId) as [->|Hne]; cbn [negb].
    + rewrite IH. cbn [includesId existsb]. fold (includesId ids x).
      destruct (String.eqb_spec jobId x) as [->|Hx].
      * rewrite String.eqb_refl, andb_false_r. reflexivity.
      * reflexivity.
    + cbn [includesId existsb]. fold (includesId ids x).
      fold (includesId (filter (fun x0 => negb (x0 =? jobId)%string) ids) x).
      rewrite IH. destruct (String.eqb_spec y x) as [->|Hx].
      * apply String.eqb_neq in Hne. rewrite Hne. reflexivity.
      * reflexivity.
Qed.

Lemma filter_absent ids jobId :
  includesId ids jobId = false ->
  filter (fun x => negb (x =? jobId)%string) ids = ids.
Proof.
  induction ids as [|y ids IH]; [reflexivity|].
  cbn [includesId existsb filter]. rewrite orb_false_iff. intros [Hy Hids].
  rewrite Hy. cbn [negb]. fold (includesId ids jobId) in Hids. rewrite (IH Hids).
  reflexivity.
Qed.

(** X13.  Removing a job that was just added, and was not compared before,
    gives the old list of ids back; removing an id that is not compared
    changes no id; adding a job twice is adding it once. *)
Theorem addJob_removeJob_roundtrip svc job :
  isInComparison svc (id job) = false ->
  _jobIds (removeJob (addJob svc job) (id job)) = _jobIds svc /\
  _jobIds (removeJob svc (id job)) = _jobIds svc /\
  addJob (addJob svc job) job = addJob svc job /\
  count (addJob svc job) = S (count svc).
Proof.
  unfold isInComparison, count. intros Habs.
  rewrite !jobIds_removeJob, jobIds_addJob, Habs.
  repeat split.
  - rewrite filter_app, (filter_absent _ _ Habs). cbn [filter].
    rewrite String.eqb_refl. cbn [negb]. apply app_nil_r.
  - apply filter_absent, Habs.
  - unfold addJob at 1. rewrite jobIds_addJob, Habs, includesId_app.
    cbn [includesId existsb]. rewrite String.eqb_refl, orb_true_r. reflexivity.
  - rewrite length_app. cbn. lia.
Qed.

Lemma addJob_removeJob_roundtrip_witness :
  _jobIds (removeJob
             (addJob (mkComparisonService ["1"; "2"] false (mkStorage true None))
                (mkJob "3" None None None None None VisaMissing)) "3")
  = ["1"; "2"].
Proof.
  destruct (addJob_removeJob_roundtrip
              (mkComparisonService ["1"; "2"] false (mkStorage true None))
              (mkJob "3" None None None None None VisaMissing)) as [H _];
    [reflexivity|exact H].
Defined.

Lemma stringItems_map ids : stringItems (map ItemString ids) = ids.
Proof. induction ids as [|x ids IH]; cbn; congruence. Qed.

Lemma persist_synced svc :
  available (localStorage svc) = true -> synced (persist svc).
Proof.
  intros Hav. unfold synced, persist, persistIds, loadFromStorage.
  cbn [localStorage _jobIds]. rewrite Hav. cbn [available item].
  apply stringItems_map.
Qed.

Lemma persist_available svc :
  available (localStorage (persist svc)) = available (localStorage svc).
Proof.
  unfold persist, persistIds. cbn [localStorage].
  destruct (available (localStorage svc)) eqn:E; [reflexivity|exact E].
Qed.

(** X14.  While [localStorage] is available the stored ids follow the
    service: after [addJob], [removeJob], [clearAll] and [reorderJobs] a
    service constructed from the storage starts with the same ids.  A new
    service is in that state whatever the storage holds. *)
Theorem comparison_storage_synced svc job jobId newOrder :
  available (localStorage svc) = true -> synced svc ->
  synced (addJob svc job) /\ synced (removeJob svc jobId) /\
  synced (clearAll svc) /\ synced (reorderJobs svc newOrder) /\
  _jobIds (newComparisonService (localStorage (removeJob svc jobId)))
  = _jobIds (removeJob svc jobId) /\
  (forall storage, synced (newComparisonService storage)).
Proof.
  intros Hav Hs.
  assert (Hadd : synced (addJob svc job)).
  { unfold addJob. destruct (includesId (_jobIds svc) (id job)); [exact Hs|].
    apply persist_synced. exact Hav. }
  assert (Hrem : synced (removeJob svc jobId)).
  { unfold removeJob.
    set (svc0 := mkComparisonService
                   (filter (fun x => negb (x =? jobId)%string) (_jobIds svc))
                   (showComparisonView svc) (localStorage svc)).
    pose proof (persist_synced svc0 Hav) as H.
    destruct (List.length (filter (fun x => negb (x =? jobId)%string) (_jobIds svc)) =? 0);
      exact H. }
  split; [|split; [|split; [|split; [|split]]]].
  - exact Hadd.
  - exact Hrem.
  - exact (persist_synced
             (mkComparisonService [] (showComparisonView svc) (localStorage svc)) Hav).
  - exact (persist_synced
             (mkComparisonService (map id newOrder) (showComparisonView svc)
                (localStorage svc)) Hav).
  - exact Hrem.
  - intros storage. reflexivity.
Qed.

Lemma comparison_storage_synced_witness :
  loadFromStorage
    (localStorage
       (addJob (newComparisonService
                  (mkStorage true (Some (RawJson (JArray [ItemString "1"; ItemOther])))))
          (mkJob "3" None None None None None VisaMissing)))
  = ["1"; "3"].
Proof.
  destruct (comparison_storage_synced
              (newComparisonService
                 (mkStorage true (Some (RawJson (JArray [ItemString "1"; ItemOther])))))
              (mkJob "3" None None None None None VisaMissing) "1" [])
    as [H _]; [reflexivity|reflexivity|exact H].
Defined.

(** X15.  Which operations can leave the comparison view open on an empty
    comparison.  A new service is not in that state, and [addJob],
    [removeJob], [clearAll], [openComparisonView] and
    [closeComparisonView] do not lead to it; nor does [reorderJobs] with a
    non-empty order.  [reorderJobs] sets the ids to those of the order and
    leaves the flag of the view as it is: with an empty order on an open
    view, the view stays open on an empty comparison. *)
Theorem comparison_view_invariant svc job jobId newOrder :
  viewInvariant svc ->
  viewInvariant (addJob svc job) /\ viewInvariant (removeJob svc jobId) /\
  viewInvariant (clearAll svc) /\ viewInvariant (openComparisonView svc) /\
  viewInvariant (closeComparisonView svc) /\
  (forall storage, viewInvariant (newComparisonService storage)) /\
  (newOrder <> [] -> viewInvariant (reorderJobs svc newOrder)) /\
  (_jobIds (reorderJobs svc newOrder) = map id newOrder /\
   showComparisonView (reorderJobs svc newOrder) = showComparisonView svc) /\
  (showComparisonView svc = true ->
   showComparisonView (reorderJobs svc []) = true /\
   _jobIds (reorderJobs svc []) = [] /\
   ~ viewInvariant (reorderJobs svc [])).
Proof.
  unfold viewInvariant. intros Hinv.
  split; [|split; [|split; [|split; [|split; [|split; [|split; [|split]]]]]]].
  - unfold addJob. destruct (includesId (_jobIds svc) (id job)); [exact Hinv|].
    cbn. intros _ H. apply app_eq_nil in H. destruct H as [_ H]. discriminate H.
  - unfold removeJob.
    destruct (filter (fun x => negb (x =? jobId)%string) (_jobIds svc)) eqn:E;
      cbn; [discriminate|intros _; discriminate].
  - cbn. discriminate.
  - unfold openComparisonView.
    destruct (1 <=? List.length (_jobIds svc)) eqn:E; [|exact Hinv].
    cbn. intros _ H. rewrite H in E. discriminate E.
  - cbn. discriminate.
  - cbn. discriminate.
  - intros Hne. cbn. intros _ H. apply map_eq_nil in H. exact (Hne H).
  - cbn. split; reflexivity.
  - intros Hopen. cbn. split; [exact Hopen|split; [reflexivity|]].
    intros H. exact (H Hopen eq_refl).
Qed.

Lemma comparison_view_invariant_witness :
  viewInvariant
    (removeJob (openComparisonView (mkComparisonService ["1"] false (mkStorage false None)))
       "1") /\
  ~ viewInvariant
      (reorderJobs
         (openComparisonView (mkComparisonService ["1"] false (mkStorage false None)))
         []).
Proof.
  destruct (comparison_view_invariant
              (openComparisonView (mkComparisonService ["1"] false (mkStorage false None)))
              (mkJob "3" None None None None None VisaMissing) "1" [])
    as (_ & H & _ & _ & _ & _ & _ & _ & H');
    [|exact (conj H (proj2 (proj2 (H' eq_refl))))].
  unfold viewInvariant. cbn. intros _. discriminate.
Defined.

Lemma byIdGet_Some allJobs jobId j :
  byIdGet allJobs jobId = Some j -> id j = jobId /\ In j allJobs.
Proof.
  unfold byIdGet. intros H. apply find_some in H. destruct H as [Hin E].
  apply String.eqb_eq in E. apply in_rev in Hin. auto.
Qed.

Lemma byIdGet_None allJobs jobId :
  byIdGet allJobs jobId = None -> includesId (map id allJobs) jobId = false.
Proof.
  unfold byIdGet. intros H.
  destruct (includesId (map id allJobs) jobId) eqn:E; [|reflexivity].
  apply includesId_In, in_map_iff in E. destruct E as (j & Hj & Hin).
  apply in_rev in Hin. apply (find_none _ _ H) in Hin.
  rewrite Hj, String.eqb_refl in Hin. discriminate.
Qed.

(** X16.  The jobs shown in the comparison are the compared ids that still
    are among the loaded jobs, in the order of the ids: an id without a
    loaded job is skipped, every job shown is a loaded job, and of two
    loaded jobs with one id the later one is shown. *)
Theorem jobs_resolution svc allJobs :
  map id (jobs svc allJobs)
  = filter (includesId (map id allJobs)) (_jobIds svc) /\
  (forall j, In j (jobs svc allJobs) -> In j allJobs /\ In (id j) (_jobIds svc)) /\
  List.length (jobs svc allJobs) <= count svc /\
  (forall j, byIdGet (allJobs ++ [j]) (id j) = Some j).
Proof.
  unfold jobs, count. generalize (_jobIds svc) as ids. intros ids.
  split; [|split; [|split]].
  - induction ids as [|x ids IH]; [reflexivity|].
    cbn [map presentJobs filter].
    destruct (byIdGet allJobs x) as [j|] eqn:E.
    + pose proof (byIdGet_Some _ _ _ E) as [Hid Hin].
      assert (Hx : includesId (map id allJobs) x = true).
      { apply includesId_In, in_map_iff. exists j. auto. }
      rewrite Hx. cbn [map]. rewrite IH, Hid. reflexivity.
    + rewrite (byIdGet_None _ _ E). exact IH.
  - intros j. induction ids as [|x ids IH]; [intros []|].
    cbn [map presentJobs]. destruct (byIdGet allJobs x) as [j'|] eqn:E.
    + intros [<-|H].
      * destruct (byIdGet_Some _ _ _ E) as [Hid Hin].
        split; [exact Hin|left; symmetry; exact Hid].
      * destruct (IH H) as [H1 H2]. split; [exact H1|right; exact H2].
    + intros H. destruct (IH H) as [H1 H2]. split; [exact H1|right; exact H2].
  - induction ids as [|x ids IH]; [cbn; lia|].
    cbn [map presentJobs List.length]. destruct (byIdGet allJobs x); cbn [List.length]; lia.
  - intros j. unfold byIdGet. rewrite rev_app_distr. cbn [rev app find].
    rewrite String.eqb_refl. reflexivity.
Qed.

Lemma jobs_resolution_witness :
  In (mkJob "2" (Some "Acme") None None None None VisaMissing)
     [mkJob "1" None None None None None VisaMissing;
      mkJob "2" (Some "Acme") None None None None VisaMissing] /\
  In "2" ["2"; "9"; "1"].
Proof.
  destruct (jobs_resolution
              (mkComparisonService ["2"; "9"; "1"] false (mkStorage true None))
              [mkJob "1" None None None None None VisaMissing;
               mkJob "2" (Some "Acme") None None None None VisaMissing])
    as (_ & H & _).
  apply (H (mkJob "2" (Some "Acme") None None None None VisaMissing)).
  vm_compute. left. reflexivity.
Defined.

(** ** Logo sources *)

Lemma startsWith_app g post : startsWith (g ++ post)%string g = true.
Proof.
  induction g as [|c g IH]; [destruct post; reflexivity|].
  cbn [append startsWith]. rewrite Ascii.eqb_refl. exact IH.
Qed.

Lemma includes_app pre g post : includes (pre ++ g ++ post)%string g = true.
Proof.
  induction pre as [|c pre IH].
  - cbn [append]. destruct (g ++ post)%string eqn:E; cbn [includes];
      rewrite <- E, startsWith_app; reflexivity.
  - cbn [append includes]. rewrite IH. apply orb_true_r.
Qed.

(** X17.  A domain that contains the name of a generic job board anywhere
    counts as generic: every subdomain of a board does, and so does any
    other host name with the board's name inside it. *)
Theorem isGenericJobBoard_containing pre generic post :
  In generic genericDomains ->
  isGenericJobBoard (pre ++ generic ++ post)%string = true.
Proof.
  intros Hin. unfold isGenericJobBoard. apply existsb_exists.
  exists generic. split; [exact Hin|apply includes_app].
Qed.

Lemma isGenericJobBoard_containing_witness :
  isGenericJobBoard "jobs.lever.co" = true /\ isGenericJobBoard "mygithub.community" = true.
Proof.
  split.
  - apply (isGenericJobBoard_containing "jobs." "lever.co" EmptyString).
    left. reflexivity.
  - apply (isGenericJobBoard_containing "my" "github.com" "munity").
    vm_compute. tauto.
Defined.

(** X18.  [getDomainFromApplyLinks] returns the host of the first link
    whose host is known, not empty and not a generic job board: the result
    is never a generic board, and it is [null] exactly when no link has
    such a host. *)
Theorem getDomainFromApplyLinks_spec extractDomain applyLinks :
  (forall domain,
     getDomainFromApplyLinks extractDomain applyLinks = Some domain ->
     truthy domain = true /\ isGenericJobBoard domain = false /\
     exists before link after,
       applyLinks = before ++ link :: after /\
       extractDomain link = Some domain /\
       getDomainFromApplyLinks extractDomain before = None) /\
  (getDomainFromApplyLinks extractDomain applyLinks = None <->
   forall link domain,
     In link applyLinks -> extractDomain link = Some domain ->
     truthy domain && negb (isGenericJobBoard domain) = false).
Proof.
  induction applyLinks as [|link rest [IH1 IH2]]; cbn [getDomainFromApplyLinks].
  - split; [discriminate|]. split; [intros _ link domain []|reflexivity].
  - destruct (extractDomain link) as [d|] eqn:E.
    + destruct (truthy d && negb (isGenericJobBoard d)) eqn:Hq.
      * split.
        -- intros domain H. injection H as <-.
           apply andb_true_iff in Hq. destruct Hq as [Ht Hg].
           apply negb_true_iff in Hg. split; [exact Ht|]. split; [exact Hg|].
           exists [], link, rest. repeat split. exact E.
        -- split; [discriminate|].
           intros H. specialize (H link d (or_introl eq_refl) E). congruence.
      * split.
        -- intros domain H. destruct (IH1 domain H) as (Ht & Hg & before & l & after & -> & El & Hb).
           split; [exact Ht|]. split; [exact Hg|].
           exists (link :: before), l, after. repeat split; [exact El|].
           cbn [getDomainFromApplyLinks]. rewrite E, Hq. exact Hb.
        -- rewrite IH2. split.
           ++ intros H l dm [<-|Hin] El; [congruence|apply (H l dm Hin El)].
           ++ intros H l dm Hin. apply H. right. exact Hin.
    + split.
      * intros domain H. destruct (IH1 domain H) as (Ht & Hg & before & l & after & -> & El & Hb).
        split; [exact Ht|]. split; [exact Hg|].
        exists (link :: before), l, after. repeat split; [exact El|].
        cbn [getDomainFromApplyLinks]. rewrite E. exact Hb.
      * rewrite IH2. split.
        -- intros H l dm [<-|Hin] El; [congruence|apply (H l dm Hin El)].
        -- intros H l dm Hin. apply H. right. exact Hin.
Qed.

Lemma getDomainFromApplyLinks_spec_witness :
  truthy "acme.com" = true /\ isGenericJobBoard "acme.com" = false.
Proof.
  destruct (getDomainFromApplyLinks_spec
              (fun link => if (link =? "https://jobs.lever.co/acme")%string
                           then Some "jobs.lever.co"
                           else if (link =? "https://acme.com/careers")%string
                                then Some "acme.com" else None)
              ["https://jobs.lever.co/acme"; "not a url"; "https://acme.com/careers"])
    as [H _].
  destruct (H "acme.com") as (Ht & Hg & _); [reflexivity|].
  split; [exact Ht|exact Hg].
Defined.

(** ** The mobile window of the comparison view *)

Lemma length_arraySlice (l : list Job) (offset : Z) :
  (0 <= offset)%Z ->
  List.length (arraySlice l offset (offset + 2))
  = Nat.min 2 (List.length l - Z.to_nat offset).
Proof.
  intros H. unfold arraySlice, sliceIndex.
  assert (H1 : (offset <? 0)%Z = false) by (apply Z.ltb_ge; lia).
  assert (H2 : (offset + 2 <? 0)%Z = false) by (apply Z.ltb_ge; lia).
  rewrite H1, H2, length_firstn, length_skipn. lia.
Qed.

(** X19.  On a narrow screen the comparison shows two jobs at a time: for
    an offset that is not negative, exactly two of them when two or more
    jobs are compared and all of them otherwise; the arrows keep the offset
    in range, and the right arrow is shown exactly when moving right moves
    the window. *)
Theorem mobile_window mobileOffset compared :
  (0 <= mobileOffset)%Z ->
  List.length (displayedJobs true mobileOffset compared)
  = Nat.min 2 (List.length compared) /\
  (0 <= mobilePrev mobileOffset <= mobileOffset)%Z /\
  (0 <= mobileNext mobileOffset compared
     <= Z.max 0 (Z.of_nat (List.length compared) - 2))%Z /\
  (showRightArrow true mobileOffset compared = true <->
   (clampedMobileOffset mobileOffset compared
    < clampedMobileOffset (mobileNext mobileOffset compared) compared)%Z) /\
  displayedJobs false mobileOffset compared = compared.
Proof.
  intros H. unfold displayedJobs, mobilePrev, mobileNext, showRightArrow.
  cbn [negb]. rewrite Z.ltb_lt.
  assert (Hc : (0 <= clampedMobileOffset mobileOffset compared)%Z)
    by (unfold clampedMobileOffset; lia).
  rewrite (length_arraySlice compared _ Hc).
  unfold clampedMobileOffset in *.
  repeat split; try lia.
Qed.

Lemma mobile_window_witness :
  List.length
    (displayedJobs true 7
       [mkJob "1" None None None None None VisaMissing;
        mkJob "2" None None None None None VisaMissing;
        mkJob "3" None None None None None VisaMissing])
  = 2.
Proof.
  destruct (mobile_window 7
              [mkJob "1" None None None None None VisaMissing;
               mkJob "2" None None None None None VisaMissing;
               mkJob "3" None None None None None VisaMissing]) as [H _];
    [lia|exact H].
Defined.

(** ** Quoted phrases and adjacent terms *)

Lemma tokenize_quoted s :
  hasChar dquote s = false ->
  tokenize (quoted s) = if truthy (trim s) then [trim s] else [].
Proof.
  intros Hs. unfold tokenize, quoted. cbn [tokenizeLoop].
  rewrite tokenizeChar_quote.
  cbn [tokenizeInit tkTokens tkCurrentToken tkInQuotes negb].
  rewrite tokenizeLoop_app,
    (tokenizeLoop_inQuotes s (mkTokenizerState [] EmptyString true) eq_refl Hs).
  cbn [tokenizeLoop tkTokens tkCurrentToken tkInQuotes append].
  rewrite tokenizeChar_quote, flushToken_spec. reflexivity.
Qed.

Lemma Derives_term t : isTermToken t = true -> Derives SymOr [t] (TermExpression t).
Proof.
  intros Ht.
  apply (DerivesOr [t] (TermExpression t) []); [|apply DerivesOrTail_nil].
  apply (DerivesAnd [t] (TermExpression t) []); [|apply DerivesAndTail_nil].
  apply DerivesNot_primary, DerivesPrimary_term, Ht.
Qed.

(** X20.  A phrase in quotes is one term, whatever spaces, parentheses or
    operator words are inside it: when the trimmed phrase is not itself a
    keyword or a parenthesis, the parse is valid and its tree is the term
    of the trimmed phrase. *)
Theorem parse_quoted_phrase this s :
  hasChar dquote s = false -> isTermToken (trim s) = true ->
  parse this (quoted s)
  = Some (mkParseResult (Some (TermExpression (trim s))) true None,
          mkParser [trim s] 1).
Proof.
  intros Hs Ht.
  assert (Htok : tokenize (quoted s) = [trim s]).
  { rewrite (tokenize_quoted s Hs).
    unfold isTermToken in Ht. rewrite !andb_true_iff in Ht.
    destruct Ht as [[[Htr _] _] _]. rewrite Htr. reflexivity. }
  rewrite (parse_wellFormed this (quoted s) (TermExpression (trim s))).
  - rewrite Htok. reflexivity.
  - unfold wellFormed. rewrite Htok. apply Derives_term, Ht.
Qed.

Lemma parse_quoted_phrase_witness :
  parse newParser (quoted " React Native (AND more) ")
  = Some (mkParseResult (Some (TermExpression "React Native (AND more)")) true None,
          mkParser ["React Native (AND more)"] 1).
Proof.
  apply (parse_quoted_phrase newParser " React Native (AND more) "); reflexivity.
Defined.

(** X21.  There is no implicit AND, and NOT is a prefix operator only: a
    term followed by any token other than AND or OR (another term, NOT, a
    parenthesis) is an error, with the message for left-over tokens. *)
Theorem tryParse_adjacent_terms t1 t2 rest :
  isTermToken t1 = true ->
  isOperator (Some t2) "AND" = false -> isOperator (Some t2) "OR" = false ->
  tryParse (t1 :: t2 :: rest) (enoughFuel (t1 :: t2 :: rest))
  = Throws "Unexpected tokens after parsing" 1.
Proof.
  intros Ht Hand Hor.
  set (tokens := t1 :: t2 :: rest).
  assert (HR : Run tokens (CallOr 0) (Returns (TermExpression t1) 1)).
  { apply (Derives_Run tokens SymOr [t1] (TermExpression t1) (Derives_term t1 Ht) 0).
    - intros k Hk. cbn in Hk. assert (k = 0) by lia. subst k. reflexivity.
    - cbn [follow]. split; [exact Hor|exact Hand]. }
  apply (tryParse_trailing tokens _ (TermExpression t1) 1); [|cbn; lia].
  apply (Run_exec_enough tokens _ (CallOr 0)); [exact HR|cbn; lia|].
  rewrite callDepth_CallOr. lia.
Qed.

Lemma tryParse_adjacent_terms_witness :
  tryParse ["Python"; "NOT"; "Django"] (enoughFuel ["Python"; "NOT"; "Django"])
  = Throws "Unexpected tokens after parsing" 1.
Proof.
  apply (tryParse_adjacent_terms "Python" "NOT" ["Django"]); reflexivity.
Defined.
